(** * crypto-swap-ui: token service, response cache, performance monitor
      and the conversion view's arithmetic

    A shallow embedding of
      - [src/utils/performance.ts]   (class [PerformanceMonitor]),
      - [src/services/tokenService.ts] (class [ResponseCache], [getTokenInfo],
        [getAllTokensInfo], [getTokenIcon], [getDefaultPrice]),
      - [src/App.tsx] (loading and selecting tokens, the conversion effect,
        the amount handlers, the swap),
      - the class [ErrorBoundary],
    together with the pieces of the JavaScript runtime they call
    ([parseFloat], [Number.prototype.toFixed], [isNaN], [RegExp.prototype.test],
    [Promise.all]).

    JavaScript numbers are IEEE 754 binary64 values: they are modelled by the
    Standard Library's [spec_float] at precision 53 and maximal exponent 1024,
    whose operations are the round-to-nearest-even ones of the standard.
    Strings are modelled by [string]; a character outside ASCII is carried
    as its UTF-8 bytes.  The functions below only look for ASCII characters
    (digits, the point, signs, white space, letters to put in upper case).
    Times are the integers [Date.now()] returns, in milliseconds. *)

From Stdlib Require Import ZArith Ascii String DecimalString DecimalN DecimalPos.
From Stdlib Require Import Floats.SpecFloat.
From stdpp Require Import gmap strings list fin_maps.


Open Scope Z_scope.

(** ** JavaScript numbers *)

Module JS.

Definition number := spec_float.

Definition prec : Z := 53.
Definition emax : Z := 1024.

Definition NaN : number := S754_nan.
Definition Infinity : number := S754_infinity false.
Definition pzero : number := S754_zero false.

(** The Number value of a mathematical integer (exact below 2^53,
    correctly rounded above). *)
Definition of_Z (z : Z) : number := binary_normalize prec emax z 0 false.

Definition mul (x y : number) : number := SFmul prec emax x y.
Definition div (x y : number) : number := SFdiv prec emax x y.

Definition add (x y : number) : number := SFadd prec emax x y.

(** The Number value of the rational [m / d] for positive [m] and [d]:
    the quotient is taken with enough bits and rounded to nearest even, as
    in the division of two binary64 values. *)
Definition of_ratio (neg : bool) (m d : positive) : number :=
  let '(q, e, l) := SFdiv_core_binary prec emax (Zpos m) 0 (Zpos d) 0 in
  binary_round_aux prec emax neg q e l.

(** The Number value of [m * 10^e] for a natural [m]. *)
Definition of_decimal (neg : bool) (m : N) (e : Z) : number :=
  match m with
  | N0 => S754_zero neg
  | Npos p =>
      if 0 <=? e
      then binary_round prec emax neg (Z.to_pos (Zpos p * 10 ^ e)) 0
      else of_ratio neg p (Z.to_pos (10 ^ (- e)))
  end.

(** [isNaN(x)] on a number. *)
Definition isNaN (x : number) : bool :=
  match x with S754_nan => true | _ => false end.


(** ToBoolean on a number: [+0], [-0] and [NaN] are falsy. *)
Definition truthy (x : number) : bool :=
  match x with S754_zero _ | S754_nan => false | _ => true end.

(** [x || d] on numbers. *)
Definition or_else (x d : number) : number := if truthy x then x else d.

(** ToBoolean on a string, and [s || d] where [s] may be [undefined]: the
    empty string is falsy. *)
Definition str_truthy (s : string) : bool :=
  match s with EmptyString => false | _ => true end.

Definition opt_truthy (o : option string) : bool :=
  match o with Some s => str_truthy s | None => false end.

Definition str_or_else (o : option string) (d : string) : string :=
  if opt_truthy o then default d o else d.

(** *** Decimal digits *)

Definition is_digit (c : ascii) : bool :=
  let n := N_of_ascii c in ((48 <=? n) && (n <=? 57))%N.

Definition digit_val (c : ascii) : N := (N_of_ascii c - 48)%N.

(** Reads the longest run of decimal digits at the head of [s], continuing
    the value [acc]; returns the value, the number of digits read and the
    rest of the string. *)
Fixpoint read_digits (s : string) (acc : N) (cnt : nat) : N * nat * string :=
  match s with
  | String c r =>
      if is_digit c then read_digits r (acc * 10 + digit_val c)%N (S cnt)
      else (acc, cnt, s)
  | EmptyString => (acc, cnt, s)
  end.

(** The white space that [parseFloat] skips (the ASCII part of
    StrWhiteSpaceChar: TAB, LF, VT, FF, CR, SP). *)
Definition is_space (c : ascii) : bool :=
  let n := N_of_ascii c in ((9 <=? n) && (n <=? 13) || (n =? 32))%N.

Fixpoint skip_space (s : string) : string :=
  match s with
  | String c r => if is_space c then skip_space r else s
  | EmptyString => s
  end.

Definition read_sign (s : string) : bool * string :=
  match s with
  | String "-" r => (true, r)
  | String "+" r => (false, r)
  | _ => (false, s)
  end.

(** ExponentPart: [e] or [E], an optional sign and at least one digit; a
    malformed exponent is not part of the literal and counts as zero. *)
Definition read_exponent (s : string) : Z :=
  match s with
  | String "e" r | String "E" r =>
      let '(neg, r') := read_sign r in
      let '(v, n, _) := read_digits r' 0%N 0%nat in
      match n with
      | O => 0
      | S _ => if neg then - Z.of_N v else Z.of_N v
      end
  | _ => 0
  end.

(** [parseFloat(s)]: the longest prefix of the trimmed input that is a
    StrDecimalLiteral, or [NaN] when there is none. *)
Definition parseFloat (s : string) : number :=
  let '(neg, s1) := read_sign (skip_space s) in
  if String.prefix "Infinity" s1 then S754_infinity neg
  else
    let '(ip, ni, s2) := read_digits s1 0%N 0%nat in
    let '(m, nf, s3) :=
      match s2 with
      | String "." r => read_digits r ip 0%nat
      | _ => (ip, 0%nat, s2)
      end in
    match (ni + nf)%nat with
    | O => NaN
    | S _ => of_decimal neg m (read_exponent s3 - Z.of_nat nf)
    end.

(** *** Number to string *)

Definition string_of_N (n : N) : string :=
  DecimalString.NilZero.string_of_uint (N.to_uint n).

Fixpoint zeros (k : nat) : string :=
  match k with O => "" | S k' => String "0" (zeros k') end.

(** Steps 9 to 11 of Number.prototype.toFixed: the decimal digits of [n]
    with a decimal point before the last [f] of them, padded on the left
    so that at least one digit precedes the point. *)
Definition fixed_digits (n : N) (f : nat) : string :=
  let m := string_of_N n in
  match f with
  | O => m
  | S _ =>
      let k := String.length m in
      let m' := if (k <=? f)%nat then zeros (S f - k) +:+ m else m in
      let k' := String.length m' in
      substring 0 (k' - f) m' +:+ "." +:+ substring (k' - f) f m'
  end.

(** The integer [n] for which [n / 10^f - m * 2^e] is as close to zero as
    possible, the larger one when there are two. *)
Definition nearest_scaled (m : positive) (e : Z) (f : nat) : Z :=
  let num := Zpos m * 10 ^ Z.of_nat f in
  if 0 <=? e then num * 2 ^ e
  else (2 * num + 2 ^ (- e)) / (2 * 2 ^ (- e)).

(** [10^21 <= m * 2^e], decided exactly. *)
Definition ge_1e21 (m : positive) (e : Z) : bool :=
  if 0 <=? e then 10 ^ 21 <=? Zpos m * 2 ^ e
  else 10 ^ 21 * 2 ^ (- e) <=? Zpos m.

Definition number_eqb (x y : number) : bool :=
  match x, y with
  | S754_zero a, S754_zero b => Bool.eqb a b
  | S754_infinity a, S754_infinity b => Bool.eqb a b
  | S754_nan, S754_nan => true
  | S754_finite a m e, S754_finite b m' e' =>
      Bool.eqb a b && (m =? m')%positive && (e =? e')
  | _, _ => false
  end.

(** Number::toString for a finite value [X >= 10^21] (an integer): the
    shortest digit string [s] (of [k] digits) such that [s * 10^(n-k)] has
    the Number value [X], the closest one when several qualify; printed in
    exponential notation. *)
Definition candidate (X : Z) (n k : nat) : option (Z * nat) :=
  let p := 10 ^ Z.of_nat (n - k) in
  let lo := X / p in
  let hi := lo + 1 in
  let ok s := number_eqb (of_Z (s * p)) (of_Z X) in
  let norm s := if s =? 10 ^ Z.of_nat k then (s / 10, S n) else (s, n) in
  match ok lo, ok hi with
  | true, true =>
      let dl := X - lo * p in
      let dh := hi * p - X in
      if dl <? dh then Some (norm lo)
      else if dh <? dl then Some (norm hi)
      else Some (norm (if Z.even lo then lo else hi))
  | true, false => Some (norm lo)
  | false, true => Some (norm hi)
  | false, false => None
  end.

Fixpoint shortest (X : Z) (n k : nat) (fuel : nat) : Z * nat :=
  match fuel with
  | O => (X / 10 ^ Z.of_nat (n - k), n)
  | S fuel' =>
      match candidate X n k with
      | Some r => r
      | None => shortest X n (S k) fuel'
      end
  end.

Definition exponential (X : Z) : string :=
  let n := String.length (string_of_N (Z.to_N X)) in
  let '(s, n') := shortest X n 1 17 in
  let ds := string_of_N (Z.to_N s) in
  let mant :=
    match ds with
    | String d EmptyString => ds
    | String d r => String d ("." +:+ r)
    | EmptyString => ds
    end in
  mant +:+ "e+" +:+ string_of_N (N.of_nat (n' - 1)).

(** [x.toFixed(f)] for [0 <= f <= 100]. *)
Definition toFixed (x : number) (f : nat) : string :=
  match x with
  | S754_nan => "NaN"
  | S754_infinity false => "Infinity"
  | S754_infinity true => "-Infinity"
  | S754_zero _ => fixed_digits 0 f
  | S754_finite neg m e =>
      (if neg then "-" else "") +:+
      (if ge_1e21 m e then exponential (Zpos m * 2 ^ e)
       else fixed_digits (Z.to_N (nearest_scaled m e f)) f)
  end.

End JS.

(** ** src/utils/performance.ts *)

Module PerformanceMonitor.

(** The fields of [class PerformanceMonitor].  The two counters only ever
    hold natural numbers: they start at 0 and change by [++], which is
    exact on JavaScript numbers below 2^53. *)
Record t := {
  metrics : gmap string (list JS.number);
  cacheHits : N;
  cacheMisses : N;
}.

Definition new : t :=
  {| metrics := ∅; cacheHits := 0; cacheMisses := 0 |}.

Definition set_metrics (m : gmap string (list JS.number)) (pm : t) : t :=
  {| metrics := m; cacheHits := cacheHits pm; cacheMisses := cacheMisses pm |}.

(** [recordMetric(label, value)].  [values] is the array stored in the map,
    so [push] and [shift] update the map's entry. *)
Definition recordMetric (label : string) (value : JS.number) (pm : t) : t :=
  let metrics1 :=
    match metrics pm !! label with
    | Some _ => metrics pm
    | None => <[label := []]> (metrics pm)
    end in
  match metrics1 !! label with
  | None => set_metrics metrics1 pm
  | Some values =>
      let pushed := values ++ [value] in
      let kept := if (100 <? length pushed)%nat then tail pushed else pushed in
      set_metrics (<[label := kept]> metrics1) pm
  end.

Definition recordCacheHit (pm : t) : t :=
  {| metrics := metrics pm;
     cacheHits := cacheHits pm + 1;
     cacheMisses := cacheMisses pm |}.

Definition recordCacheMiss (pm : t) : t :=
  {| metrics := metrics pm;
     cacheHits := cacheHits pm;
     cacheMisses := cacheMisses pm + 1 |}.

Definition getCacheHitRate (pm : t) : JS.number :=
  let total := (cacheHits pm + cacheMisses pm)%N in
  if (total =? 0)%N then JS.pzero
  else JS.mul (JS.div (JS.of_Z (Z.of_N (cacheHits pm)))
                      (JS.of_Z (Z.of_N total)))
              (JS.of_Z 100).

Definition reset (pm : t) : t := new.

(** A call of one of the monitor's mutating methods. *)
Inductive call :=
| RecordMetric (label : string) (value : JS.number)
| RecordCacheHit
| RecordCacheMiss
| Reset.

Definition exec (c : call) (pm : t) : t :=
  match c with
  | RecordMetric label value => recordMetric label value pm
  | RecordCacheHit => recordCacheHit pm
  | RecordCacheMiss => recordCacheMiss pm
  | Reset => reset pm
  end.

(** Runs the calls from left to right. *)
Definition run (cs : list call) (pm : t) : t :=
  foldl (fun acc c => exec c acc) pm cs.

(** Cache accesses recorded by a sequence of calls since the last reset. *)
Fixpoint hits_of (cs : list call) (acc : N) : N :=
  match cs with
  | [] => acc
  | RecordCacheHit :: r => hits_of r (acc + 1)
  | Reset :: r => hits_of r 0
  | _ :: r => hits_of r acc
  end.

Fixpoint misses_of (cs : list call) (acc : N) : N :=
  match cs with
  | [] => acc
  | RecordCacheMiss :: r => misses_of r (acc + 1)
  | Reset :: r => misses_of r 0
  | _ :: r => misses_of r acc
  end.

(** Every label's array holds at most 100 values. *)
Definition bounded (pm : t) : Prop :=
  map_Forall (fun _ values => (length values <= 100)%nat) (metrics pm).

(** [getAverageMetric(label)]. *)
Definition getAverageMetric (label : string) (pm : t) : JS.number :=
  match metrics pm !! label with
  | None => JS.pzero
  | Some values =>
      match values with
      | [] => JS.pzero
      | _ :: _ =>
          let sum := foldl JS.add JS.pzero values in
          JS.div sum (JS.of_Z (Z.of_nat (length values)))
      end
  end.





(** The values recorded under [label] since the last reset, oldest first,
    continuing [acc]. *)
Fixpoint recorded (label : string) (cs : list call) (acc : list JS.number)
  : list JS.number :=
  match cs with
  | [] => acc
  | RecordMetric l v :: r =>
      recorded label r (if String.eqb l label then acc ++ [v] else acc)
  | Reset :: r => recorded label r []
  | _ :: r => recorded label r acc
  end.

(** The last [n] elements of a list. *)
Definition last_n {A} (n : nat) (l : list A) : list A :=
  drop (length l - n) l.

(** What the map holds for a label under which [vs] were recorded. *)
Definition window (vs : list JS.number) : option (list JS.number) :=
  match vs with
  | [] => None
  | _ :: _ => Some (last_n 100 vs)
  end.


End PerformanceMonitor.

(** ** src/services/tokenService.ts: the response cache *)

Module ResponseCache.

Record CacheEntry (T : Type) := { data : T; timestamp : Z }.
Arguments data {T} _.
Arguments timestamp {T} _.
Arguments Build_CacheEntry {T} _ _.

Definition TTL : Z := 5 * 60 * 1000.

Section Methods.
Context {T : Type}.

(** The state the methods act on: the private [cache] map and the global
    [perfMonitor]. *)
Definition state : Type := gmap string (CacheEntry T) * PerformanceMonitor.t.

(** [get(key)], where [now] is the value [Date.now()] returns. *)
Definition get (key : string) (now : Z) (st : state) : option T * state :=
  let '(cache, pm) := st in
  match cache !! key with
  | None => (None, (cache, PerformanceMonitor.recordCacheMiss pm))
  | Some entry =>
      if TTL <? now - timestamp entry
      then (None, (delete key cache, PerformanceMonitor.recordCacheMiss pm))
      else (Some (data entry), (cache, PerformanceMonitor.recordCacheHit pm))
  end.

(** [set(key, data)]. *)
Definition set (key : string) (d : T) (now : Z) (st : state) : state :=
  let '(cache, pm) := st in
  (<[key := {| data := d; timestamp := now |}]> cache, pm).

Definition clear (st : state) : state :=
  let '(_, pm) := st in (∅, pm).

(** An intervening cache operation with the clock reading it sees. *)
Inductive op :=
| Get (key : string) (now : Z)
| Set_ (key : string) (d : T) (now : Z)
| Clear.

Definition exec (o : op) (st : state) : state :=
  match o with
  | Get key now => snd (get key now st)
  | Set_ key d now => set key d now st
  | Clear => clear st
  end.

Definition run (os : list op) (st : state) : state :=
  foldl (fun acc o => exec o acc) st os.

(** [o] neither sets nor clears [k], and reads the clock no later than [t]. *)
Definition harmless (k : string) (t : Z) (o : op) : Prop :=
  match o with
  | Get _ now => now <= t
  | Set_ key _ _ => key <> k
  | Clear => False
  end.

(** The number of reads among some operations. *)
Fixpoint reads (os : list op) : N :=
  match os with
  | [] => 0
  | Get _ _ :: r => 1 + reads r
  | _ :: r => reads r
  end.

End Methods.
End ResponseCache.

(** ** src/services/tokenService.ts: tokens, catalog, fetchers *)

Module Token.
(** [interface Token]; [address] is optional. *)
Record t := {
  symbol : string;
  name : string;
  price : JS.number;
  icon : string;
  chainId : string;
  address : option string;
}.
End Token.

Module Supported.
(** An element of [SUPPORTED_TOKENS]. *)
Record t := {
  symbol : string;
  name : string;
  chainId : string;
  icon : string;
}.
End Supported.

(** What the service reads of the values that the two functions imported
    from [@funkit/api-base] resolve to; a property may be missing. *)
Module Erc20Asset.
Record t := {
  symbol : option string;
  name : option string;
  address : option string;
}.
End Erc20Asset.

Module PriceInfo.
Record t := { unitPrice : option JS.number }.
End PriceInfo.

Module TokenService.

Import ResponseCache.

Definition SUPPORTED_TOKENS : list Supported.t := [
  {| Supported.symbol := "USDC"; Supported.name := "USD Coin";
     Supported.chainId := "1"; Supported.icon := "💵" |};
  {| Supported.symbol := "USDT"; Supported.name := "Tether USD";
     Supported.chainId := "137"; Supported.icon := "💵" |};
  {| Supported.symbol := "ETH"; Supported.name := "Ethereum";
     Supported.chainId := "8453"; Supported.icon := "Ξ" |};
  {| Supported.symbol := "WBTC"; Supported.name := "Wrapped Bitcoin";
     Supported.chainId := "1"; Supported.icon := "₿" |}
].

(** [symbol.toUpperCase()], for symbols written in ASCII. *)
Definition upper (c : ascii) : ascii :=
  let n := N_of_ascii c in
  if ((97 <=? n) && (n <=? 122))%N then ascii_of_N (n - 32) else c.

Fixpoint toUpperCase (s : string) : string :=
  match s with
  | EmptyString => EmptyString
  | String c r => String (upper c) (toUpperCase r)
  end.

(** [iconMap[symbol.toUpperCase()] || '🪙'].  No property that [iconMap]
    inherits has an upper-case name, so only the seven own keys answer. *)
Definition getTokenIcon (symbol : string) : string :=
  let key := toUpperCase symbol in
  if String.eqb key "BTC" then "₿"
  else if String.eqb key "WBTC" then "₿"
  else if String.eqb key "ETH" then "Ξ"
  else if String.eqb key "USDC" then "💵"
  else if String.eqb key "USDT" then "💵"
  else if String.eqb key "BNB" then "🟡"
  else if String.eqb key "SOL" then "◎"
  else "🪙".

(** [priceMap[symbol] || 0], on the four own keys of [priceMap]; the
    function is only applied to catalog symbols. *)
Definition getDefaultPrice (symbol : string) : JS.number :=
  if String.eqb symbol "USDC" then JS.of_Z 1
  else if String.eqb symbol "USDT" then JS.of_Z 1
  else if String.eqb symbol "ETH" then JS.of_Z 2500
  else if String.eqb symbol "WBTC" then JS.of_Z 45000
  else JS.pzero.

(** *** Environment and state *)

Definition error := string.

(** How a promise settles. *)
Inductive Settled (A : Type) :=
| Fulfilled (a : A)
| Rejected (e : error).
Arguments Fulfilled {A} _.
Arguments Rejected {A} _.

Inductive Request :=
| ReqErc20 (chainId symbol : string)
| ReqPrice (chainId assetTokenAddress : string).

(** Everything outside the program: the successive readings of
    [Date.now()] and how the external API (called with the configured
    [apiKey]) answers the [n]-th request issued ([n] counts all requests,
    from 0). *)
Record World := {
  dateNow : nat -> Z;
  getAssetErc20ByChainAndSymbol :
    nat -> string -> string -> Settled (option Erc20Asset.t);
  getAssetPriceInfo :
    nat -> string -> string -> Settled (option PriceInfo.t);
}.

(** The module's mutable state: [apiCache], the imported [perfMonitor],
    and three ghost fields: how often the clock was read, the requests
    issued so far (oldest first) and the lines written by
    [console.error]. *)
Record State := {
  apiCache : gmap string (CacheEntry Token.t);
  perfMonitor : PerformanceMonitor.t;
  clockReads : nat;
  requests : list Request;
  console : list string;
}.

Definition initial : State :=
  {| apiCache := ∅; perfMonitor := PerformanceMonitor.new;
     clockReads := 0; requests := []; console := [] |}.

(** *** Asynchronous functions

    An [async] function runs synchronously until it ends or reaches an
    [await] on an API call; it continues, from whatever the state then is,
    when that call has settled. *)
Inductive Step (A : Type) :=
| Done (r : Settled A) (s : State)
| AwaitErc20 (s : State) (ticket : nat) (chainId symbol : string)
    (k : Settled (option Erc20Asset.t) -> State -> Step A)
| AwaitPrice (s : State) (ticket : nat) (chainId address : string)
    (k : Settled (option PriceInfo.t) -> State -> Step A).
Arguments Done {A} _ _.
Arguments AwaitErc20 {A} _ _ _ _ _.
Arguments AwaitPrice {A} _ _ _ _ _.

Definition Async (A : Type) : Type := State -> Step A.

Fixpoint bind_step {A B} (st : Step A) (f : A -> Async B) : Step B :=
  match st with
  | Done (Fulfilled a) s => f a s
  | Done (Rejected e) s => Done (Rejected e) s
  | AwaitErc20 s t c sy k => AwaitErc20 s t c sy (fun o s' => bind_step (k o s') f)
  | AwaitPrice s t c a k => AwaitPrice s t c a (fun o s' => bind_step (k o s') f)
  end.

(** [try { body } catch (e) { handler }]. *)
Fixpoint catch_step {A} (st : Step A) (h : error -> Async A) : Step A :=
  match st with
  | Done (Fulfilled a) s => Done (Fulfilled a) s
  | Done (Rejected e) s => h e s
  | AwaitErc20 s t c sy k => AwaitErc20 s t c sy (fun o s' => catch_step (k o s') h)
  | AwaitPrice s t c a k => AwaitPrice s t c a (fun o s' => catch_step (k o s') h)
  end.

#[global] Instance async_ret : MRet Async :=
  fun A a s => Done (Fulfilled a) s.
#[global] Instance async_bind : MBind Async :=
  fun A B f m s => bind_step (m s) f.

Definition try_catch {A} (body : Async A) (h : error -> Async A) : Async A :=
  fun s => catch_step (body s) h.

(** A synchronous state change. *)
Definition lift {A} (f : State -> A * State) : Async A :=
  fun s => let '(a, s') := f s in Done (Fulfilled a) s'.

Definition issue (r : Request) (s : State) : State :=
  {| apiCache := apiCache s; perfMonitor := perfMonitor s;
     clockReads := clockReads s; requests := requests s ++ [r];
     console := console s |}.

(** [await getAssetErc20ByChainAndSymbol({chainId, symbol, apiKey})]: the
    request is issued now; awaiting a rejected promise throws. *)
Definition await_erc20 (chainId symbol : string)
  : Async (option Erc20Asset.t) :=
  fun s => AwaitErc20 (issue (ReqErc20 chainId symbol) s)
             (length (requests s)) chainId symbol (fun o s' => Done o s').

Definition await_price (chainId address : string)
  : Async (option PriceInfo.t) :=
  fun s => AwaitPrice (issue (ReqPrice chainId address) s)
             (length (requests s)) chainId address (fun o s' => Done o s').

Definition console_error (line : string) : Async unit :=
  lift (fun s =>
    (tt, {| apiCache := apiCache s; perfMonitor := perfMonitor s;
            clockReads := clockReads s; requests := requests s;
            console := console s ++ [line] |})).

(** A promise returned by an [async] function is settled, or waits for an
    API call with the rest of the function as its continuation. *)
Inductive Promise (A : Type) :=
| Settled_ (r : Settled A)
| PendingErc20 (ticket : nat) (chainId symbol : string)
    (k : Settled (option Erc20Asset.t) -> State -> Step A)
| PendingPrice (ticket : nat) (chainId address : string)
    (k : Settled (option PriceInfo.t) -> State -> Step A).
Arguments Settled_ {A} _.
Arguments PendingErc20 {A} _ _ _ _.
Arguments PendingPrice {A} _ _ _ _.

(** Calling an [async] function: its synchronous prefix runs, and the
    caller gets the promise and the state left behind. *)
Definition suspend {A} (st : Step A) : Promise A * State :=
  match st with
  | Done r s => (Settled_ r, s)
  | AwaitErc20 s t c sy k => (PendingErc20 t c sy k, s)
  | AwaitPrice s t c a k => (PendingPrice t c a k, s)
  end.

Section Service.
Variable w : World.

(** [apiCache.get<Token>(key)]: [Date.now()] is read only when the map has
    an entry for the key. *)
Definition apiCache_get (key : string) (s : State) : option Token.t * State :=
  let '(r, (cache', pm')) :=
    get key (dateNow w (clockReads s)) (apiCache s, perfMonitor s) in
  (r, {| apiCache := cache'; perfMonitor := pm';
         clockReads := match apiCache s !! key with
                       | Some _ => S (clockReads s)
                       | None => clockReads s
                       end;
         requests := requests s; console := console s |}).

(** [apiCache.set(key, token)]. *)
Definition apiCache_set (key : string) (token : Token.t) (s : State)
  : unit * State :=
  let '(cache', pm') :=
    set key token (dateNow w (clockReads s)) (apiCache s, perfMonitor s) in
  (tt, {| apiCache := cache'; perfMonitor := pm';
          clockReads := S (clockReads s);
          requests := requests s; console := console s |}).

Definition cacheKey (chainId symbol : string) : string :=
  "token-" +:+ chainId +:+ "-" +:+ symbol.

(** [priceInfo?.unitPrice || 0]. *)
Definition unitPrice_or_0 (priceInfo : option PriceInfo.t) : JS.number :=
  match priceInfo ≫= PriceInfo.unitPrice with
  | Some p => JS.or_else p JS.pzero
  | None => JS.pzero
  end.

Definition getTokenInfo (chainId symbol : string) : Async (option Token.t) :=
  cached ← lift (apiCache_get (cacheKey chainId symbol));
  match cached with
  | Some token => mret (Some token)
  | None =>
      try_catch
        (tokenInfo ← await_erc20 chainId symbol;
         match tokenInfo with
         | None => mret None
         | Some info =>
             price ←
               (if JS.opt_truthy (Erc20Asset.address info)
                then
                  try_catch
                    (priceInfo ← await_price chainId
                                   (default "" (Erc20Asset.address info));
                     mret (unitPrice_or_0 priceInfo))
                    (fun e =>
                       _ ← console_error ("Error fetching price: " +:+ e);
                       mret JS.pzero)
                else mret JS.pzero);
             let token :=
               {| Token.symbol := JS.str_or_else (Erc20Asset.symbol info) symbol;
                  Token.name := JS.str_or_else (Erc20Asset.name info) symbol;
                  Token.price := price;
                  Token.icon := getTokenIcon symbol;
                  Token.chainId := chainId;
                  Token.address := Erc20Asset.address info |} in
             _ ← lift (apiCache_set (cacheKey chainId symbol) token);
             mret (Some token)
         end)
        (fun e =>
           _ ← console_error ("Error fetching token info: " +:+ e);
           mret None)
  end.

(** [await p] at top level: the function is resumed each time the call it
    waits for has settled, until it ends. *)
Fixpoint settle {A} (st : Step A) : Settled A * State :=
  match st with
  | Done r s => (r, s)
  | AwaitErc20 s t c sy k => settle (k (getAssetErc20ByChainAndSymbol w t c sy) s)
  | AwaitPrice s t c a k => settle (k (getAssetPriceInfo w t c a) s)
  end.

Definition await {A} (m : Async A) (s : State) : Settled A * State :=
  settle (m s).

(** *** Promise.all *)

(** The call a pending promise waits for settles: the function runs on to
    its next [await] or to its end. *)
Definition resume {A} (p : Promise A) (s : State) : Promise A * State :=
  match p with
  | Settled_ r => (p, s)
  | PendingErc20 t c sy k => suspend (k (getAssetErc20ByChainAndSymbol w t c sy) s)
  | PendingPrice t c a k => suspend (k (getAssetPriceInfo w t c a) s)
  end.

Definition resume_at {A} (i : nat) (ps : list (Promise A)) (s : State)
  : list (Promise A) * State :=
  match ps !! i with
  | Some p => let '(p', s') := resume p s in (<[i := p']> ps, s')
  | None => (ps, s)
  end.

(** The responses arrive in the order [sched] (a list of positions). *)
Fixpoint run_schedule {A} (sched : list nat) (ps : list (Promise A)) (s : State)
  : list (Promise A) * State :=
  match sched with
  | [] => (ps, s)
  | i :: rest => let '(ps', s') := resume_at i ps s in run_schedule rest ps' s'
  end.

Definition finish {A} (p : Promise A) (s : State) : Settled A * State :=
  match p with
  | Settled_ r => (r, s)
  | PendingErc20 t c sy k => settle (k (getAssetErc20ByChainAndSymbol w t c sy) s)
  | PendingPrice t c a k => settle (k (getAssetPriceInfo w t c a) s)
  end.

Fixpoint finish_all {A} (ps : list (Promise A)) (s : State)
  : list (Settled A) * State :=
  match ps with
  | [] => ([], s)
  | p :: rest =>
      let '(r, s') := finish p s in
      let '(rs, s'') := finish_all rest s' in
      (r :: rs, s'')
  end.

(** All fulfilled: the array of values, in the promises' order; otherwise
    a rejection. *)
Fixpoint collect {A} (rs : list (Settled A)) : Settled (list A) :=
  match rs with
  | [] => Fulfilled []
  | Rejected e :: _ => Rejected e
  | Fulfilled a :: rest =>
      match collect rest with
      | Fulfilled l => Fulfilled (a :: l)
      | Rejected e => Rejected e
      end
  end.

(** [await Promise.all(ps)].  The responses arrive in the order [sched];
    those still outstanding when [sched] is used up arrive in the promises'
    order, so that the result is defined for every [sched]. *)
Definition promise_all {A} (sched : list nat) (ps : list (Promise A)) (s : State)
  : Settled (list A) * State :=
  let '(ps', s') := run_schedule sched ps s in
  let '(rs, s'') := finish_all ps' s' in
  (collect rs, s'').

(** *** getAllTokensInfo *)

(** The [for ... of] loop over the catalog, with its [break]. *)
Fixpoint probe (tokens : list Supported.t) (cachedTokens : list Token.t)
  (s : State) : list Token.t * bool * State :=
  match tokens with
  | [] => (cachedTokens, true, s)
  | token :: rest =>
      let '(cached, s') :=
        apiCache_get
          (cacheKey (Supported.chainId token) (Supported.symbol token)) s in
      match cached with
      | Some c => probe rest (cachedTokens ++ [c]) s'
      | None => (cachedTokens, false, s')
      end
  end.

(** [tokens.map((token) => getTokenInfo(token.chainId, token.symbol))]:
    the calls are made one after the other, each running up to its first
    [await]. *)
Fixpoint start_all (tokens : list Supported.t) (s : State)
  : list (Promise (option Token.t)) * State :=
  match tokens with
  | [] => ([], s)
  | token :: rest =>
      let '(p, s') :=
        suspend (getTokenInfo (Supported.chainId token)
                   (Supported.symbol token) s) in
      let '(ps, s'') := start_all rest s' in
      (p :: ps, s'')
  end.

(** The record substituted where a fetch gave no token. *)
Definition fallback (token : Supported.t) : Token.t :=
  {| Token.symbol := Supported.symbol token;
     Token.name := Supported.name token;
     Token.price := getDefaultPrice (Supported.symbol token);
     Token.icon := Supported.icon token;
     Token.chainId := Supported.chainId token;
     Token.address := None |}.

(** The final [SUPPORTED_TOKENS.map((token, index) => ...)]. *)
Definition with_fallbacks (tokens : list Supported.t)
  (results : list (option Token.t)) : list Token.t :=
  imap (fun index token =>
          match results !! index with
          | Some (Some result) => result
          | _ => fallback token
          end) tokens.

(** [tokenPromises] and [results] of [getAllTokensInfo]. *)
Definition fetch_round (sched : list nat) (s : State)
  : Settled (list (option Token.t)) * State :=
  let '(tokenPromises, s1) := start_all SUPPORTED_TOKENS s in
  promise_all sched tokenPromises s1.

Definition getAllTokensInfo (sched : list nat) (s : State)
  : Settled (list Token.t) * State :=
  let '(cachedTokens, allCached, s1) := probe SUPPORTED_TOKENS [] s in
  if allCached then (Fulfilled cachedTokens, s1)
  else
    match fetch_round sched s1 with
    | (Fulfilled results, s2) =>
        (Fulfilled (with_fallbacks SUPPORTED_TOKENS results), s2)
    | (Rejected e, s2) => (Rejected e, s2)
    end.

(** *** Notions used to state the properties *)

(** Every catalog token has an entry that is not expired at the moment the
    loop of [getAllTokensInfo] looks at it: the entries' tokens, in catalog
    order.  [reads] is the number of clock readings made before. *)
Fixpoint cached_all (tokens : list Supported.t)
  (cache : gmap string (CacheEntry Token.t)) (reads : nat)
  : option (list Token.t) :=
  match tokens with
  | [] => Some []
  | token :: rest =>
      match cache !! cacheKey (Supported.chainId token) (Supported.symbol token) with
      | Some entry =>
          if TTL <? dateNow w reads - timestamp entry then None
          else cons (data entry) <$> cached_all rest cache (S reads)
      | None => None
      end
  end.

End Service.

(** Cache reads recorded so far, and metadata requests issued so far. *)
Definition accesses (s : State) : N :=
  (PerformanceMonitor.cacheHits (perfMonitor s)
   + PerformanceMonitor.cacheMisses (perfMonitor s))%N.

Definition is_erc20 (r : Request) : bool :=
  match r with ReqErc20 _ _ => true | ReqPrice _ _ => false end.

Definition erc20_requests (s : State) : nat :=
  length (filter (fun r => is_erc20 r = true) (requests s)).

(** However the API answers, each part of the function moves the state
    along [R] and the function ends with a result in [Q]. *)
Fixpoint respects {A} (R : State -> State -> Prop) (Q : Settled A -> Prop)
  (s0 : State) (st : Step A) : Prop :=
  match st with
  | Done r s => R s0 s /\ Q r
  | AwaitErc20 s _ _ _ k =>
      R s0 s /\ forall o s', respects R Q s' (k o s')
  | AwaitPrice s _ _ _ k =>
      R s0 s /\ forall o s', respects R Q s' (k o s')
  end.

Definition promise_respects {A} (R : State -> State -> Prop)
  (Q : Settled A -> Prop) (p : Promise A) : Prop :=
  match p with
  | Settled_ r => Q r
  | PendingErc20 _ _ _ k => forall o s', respects R Q s' (k o s')
  | PendingPrice _ _ _ k => forall o s', respects R Q s' (k o s')
  end.

Definition fulfilled {A} (r : Settled A) : Prop :=
  match r with Fulfilled _ => True | Rejected _ => False end.

(** What the part of [getTokenInfo] after its first [await] leaves alone:
    the monitor (no cache read) and the metadata requests. *)
Definition quiet (s s' : State) : Prop :=
  perfMonitor s' = perfMonitor s /\ erc20_requests s' = erc20_requests s.


(** The price lookup gives no price: it throws, or resolves to nothing or
    to a value without [unitPrice]. *)
Definition no_price (o : Settled (option PriceInfo.t)) : Prop :=
  match o with
  | Rejected _ => True
  | Fulfilled priceInfo => priceInfo ≫= PriceInfo.unitPrice = None
  end.

(** *** Notions used to state further properties *)

(** The string has no hyphen. *)
Fixpoint hyphen_free (s : string) : bool :=
  match s with
  | EmptyString => true
  | String c r => negb (Ascii.eqb c "-") && hyphen_free r
  end.

(** The cache key of a catalog entry. *)
Definition key_of (token : Supported.t) : string :=
  cacheKey (Supported.chainId token) (Supported.symbol token).

(** The catalog as the cache shows it: the cached token of each entry, and
    the fallback record where there is none. *)
Definition catalog_view (s : State) : list Token.t :=
  (fun token =>
     match apiCache s !! key_of token with
     | Some entry => data entry
     | None => fallback token
     end) <$> SUPPORTED_TOKENS.

(** Only the entry under [key] may differ between the two caches. *)
Definition only (key : string) (s s' : State) : Prop :=
  forall k, k <> key -> apiCache s' !! k = apiCache s !! k.

(** The result is the token the cache holds under [key], if any. *)
Definition cached_result (key : string) (r : Settled (option Token.t))
  (s : State) : Prop :=
  r = Fulfilled (data <$> apiCache s !! key).

(** A started [getTokenInfo] that owns [key]: each of its parts changes at
    most the entry under [key]; while it waits there is no such entry; and
    when it ends, provided nobody else wrote under [key] meanwhile, its
    result is what the cache holds there. *)
Fixpoint owns (key : string) (s0 : State) (st : Step (option Token.t)) : Prop :=
  match st with
  | Done r s => only key s0 s /\ cached_result key r s
  | AwaitErc20 s _ _ _ k =>
      only key s0 s /\ apiCache s !! key = None
      /\ forall o s', apiCache s' !! key = None -> owns key s' (k o s')
  | AwaitPrice s _ _ _ k =>
      only key s0 s /\ apiCache s !! key = None
      /\ forall o s', apiCache s' !! key = None -> owns key s' (k o s')
  end.

Definition promise_owns (key : string) (p : Promise (option Token.t))
  (s : State) : Prop :=
  match p with
  | Settled_ r => cached_result key r s
  | PendingErc20 _ _ _ k =>
      apiCache s !! key = None
      /\ forall o s', apiCache s' !! key = None -> owns key s' (k o s')
  | PendingPrice _ _ _ k =>
      apiCache s !! key = None
      /\ forall o s', apiCache s' !! key = None -> owns key s' (k o s')
  end.

(** The price API answers a request the same way whenever it is asked. *)
Definition steady_prices (w : World) : Prop :=
  forall n n' chainId address,
    getAssetPriceInfo w n chainId address = getAssetPriceInfo w n' chainId address.

(** Whatever the state it is resumed in, the function ends with [r]. *)
Fixpoint settles_to {A} (w : World) (r : Settled A) (st : Step A) : Prop :=
  match st with
  | Done r' _ => r' = r
  | AwaitErc20 _ t c sy k =>
      forall s', settles_to w r (k (getAssetErc20ByChainAndSymbol w t c sy) s')
  | AwaitPrice _ t c a k =>
      forall s', settles_to w r (k (getAssetPriceInfo w t c a) s')
  end.

Definition promise_settles_to {A} (w : World) (r : Settled A) (p : Promise A)
  : Prop :=
  match p with
  | Settled_ r' => r' = r
  | PendingErc20 t c sy k =>
      forall s', settles_to w r (k (getAssetErc20ByChainAndSymbol w t c sy) s')
  | PendingPrice t c a k =>
      forall s', settles_to w r (k (getAssetPriceInfo w t c a) s')
  end.

(** Every entry under a catalog key holds a token with that catalog
    entry's chain and icon. *)
Definition catalog_consistent (s : State) : Prop :=
  forall token entry,
    token ∈ SUPPORTED_TOKENS ->
    apiCache s !! key_of token = Some entry ->
    Token.chainId (data entry) = Supported.chainId token
    /\ Token.icon (data entry) = Supported.icon token.

Definition keeps_consistent (s s' : State) : Prop :=
  catalog_consistent s -> catalog_consistent s'.

(** *** Environments and states used in examples *)

Definition value_of {A} (r : Settled A) : option A :=
  match r with Fulfilled a => Some a | Rejected _ => None end.

(** The API is unreachable. *)
Definition world_down : World :=
  {| dateNow := fun n => Z.of_nat n;
     getAssetErc20ByChainAndSymbol := fun _ _ _ => Rejected "network";
     getAssetPriceInfo := fun _ _ _ => Rejected "network" |}.

(** The API knows no token; the clock stands at 300001 ms. *)
Definition world_no_token : World :=
  {| dateNow := fun _ => 300001;
     getAssetErc20ByChainAndSymbol := fun _ _ _ => Fulfilled None;
     getAssetPriceInfo := fun _ _ _ => Fulfilled None |}.

(** The API knows every token but USDT, and prices every token but ETH. *)
Definition world_partial : World :=
  {| dateNow := fun n => Z.of_nat n;
     getAssetErc20ByChainAndSymbol := fun _ _ symbol =>
       if String.eqb symbol "USDT" then Fulfilled None
       else Fulfilled (Some {| Erc20Asset.symbol := Some symbol;
                               Erc20Asset.name := None;
                               Erc20Asset.address := Some ("0x" +:+ symbol) |});
     getAssetPriceInfo := fun _ _ address =>
       if String.eqb address "0xETH" then Rejected "timeout"
       else Fulfilled (Some {| PriceInfo.unitPrice := Some (JS.of_Z 7) |}) |}.

(** The API knows and prices every token. *)
Definition world_up : World :=
  {| dateNow := fun n => Z.of_nat n;
     getAssetErc20ByChainAndSymbol := fun _ _ symbol =>
       Fulfilled (Some {| Erc20Asset.symbol := Some symbol;
                          Erc20Asset.name := Some symbol;
                          Erc20Asset.address := Some ("0x" +:+ symbol) |});
     getAssetPriceInfo := fun _ _ _ =>
       Fulfilled (Some {| PriceInfo.unitPrice := Some (JS.of_Z 7) |}) |}.

(** The state after a first [getAllTokensInfo] in that world. *)
Definition state_warm : State := snd (getAllTokensInfo world_up [] initial).

(** A cache whose only entry, written at time 0, is for USDC on chain 1. *)
Definition state_stale : State :=
  {| apiCache :=
       {[ "token-1-USDC" :=
            {| data := {| Token.symbol := "USDC"; Token.name := "USD Coin";
                          Token.price := JS.of_Z 1; Token.icon := "💵";
                          Token.chainId := "1"; Token.address := None |};
               timestamp := 0 |} ]};
     perfMonitor := PerformanceMonitor.new;
     clockReads := 0; requests := []; console := [] |}.

End TokenService.

(** ** src/App.tsx: the conversion view *)

Module App.

(** *** The pattern of the amount fields *)

Inductive regex :=
| Void
| Eps
| Digit                      (* \d *)
| Chr (c : ascii)
| Cat (r1 r2 : regex)
| Alt (r1 r2 : regex)
| Star (r : regex).

(** [r?] *)
Definition Opt (r : regex) : regex := Alt r Eps.

Fixpoint nullable (r : regex) : bool :=
  match r with
  | Void | Digit | Chr _ => false
  | Eps | Star _ => true
  | Cat r1 r2 => nullable r1 && nullable r2
  | Alt r1 r2 => nullable r1 || nullable r2
  end.

Fixpoint deriv (a : ascii) (r : regex) : regex :=
  match r with
  | Void | Eps => Void
  | Digit => if JS.is_digit a then Eps else Void
  | Chr c => if Ascii.eqb a c then Eps else Void
  | Cat r1 r2 =>
      if nullable r1 then Alt (Cat (deriv a r1) r2) (deriv a r2)
      else Cat (deriv a r1) r2
  | Alt r1 r2 => Alt (deriv a r1) (deriv a r2)
  | Star r1 => Cat (deriv a r1) (Star r1)
  end.

(** [/^r$/.test(s)]: the whole of [s] matches [r]. *)
Fixpoint test (r : regex) (s : string) : bool :=
  match s with
  | EmptyString => nullable r
  | String a rest => test (deriv a r) rest
  end.

(** The strings a pattern denotes. *)
Inductive matches : regex -> string -> Prop :=
| MEps : matches Eps ""
| MDigit c : JS.is_digit c = true -> matches Digit (String c "")
| MChr c : matches (Chr c) (String c "")
| MCat r1 r2 s1 s2 :
    matches r1 s1 -> matches r2 s2 -> matches (Cat r1 r2) (s1 +:+ s2)
| MAltL r1 r2 s : matches r1 s -> matches (Alt r1 r2) s
| MAltR r1 r2 s : matches r2 s -> matches (Alt r1 r2) s
| MStar0 r : matches (Star r) ""
| MStarApp r s1 s2 :
    matches r s1 -> matches (Star r) s2 -> matches (Star r) (s1 +:+ s2).

Fixpoint all_digits (s : string) : bool :=
  match s with
  | EmptyString => true
  | String c r => JS.is_digit c && all_digits r
  end.

(** [\d*\.?\d*] *)
Definition amountPattern : regex :=
  Cat (Star Digit) (Cat (Opt (Chr ".")) (Star Digit)).

(** The guard of both amount handlers:
    [value === '' || /^\d*\.?\d*$/.test(value)]. *)
Definition accepted (value : string) : bool :=
  String.eqb value "" || test amountPattern value.

(** *** The component's state *)

Record State := {
  tokens : list Token.t;
  leftToken : option Token.t;
  rightToken : option Token.t;
  leftAmount : string;
  rightAmount : string;
  isLoading : bool;
  error : option string;
}.

Definition setLeftAmount (v : string) (st : State) : State :=
  {| tokens := tokens st; leftToken := leftToken st;
     rightToken := rightToken st; leftAmount := v;
     rightAmount := rightAmount st; isLoading := isLoading st;
     error := error st |}.

Definition setRightAmount (v : string) (st : State) : State :=
  {| tokens := tokens st; leftToken := leftToken st;
     rightToken := rightToken st; leftAmount := leftAmount st;
     rightAmount := v; isLoading := isLoading st;
     error := error st |}.

(** [isNaN(value) ? '0' : value.toFixed(6)] *)
Definition display (value : JS.number) : string :=
  if JS.isNaN value then "0" else JS.toFixed value 6.

(** The value the conversion effect computes from two selected tokens and
    a non-empty amount. *)
Definition rightValue (l r : Token.t) (amount : string) : JS.number :=
  let leftValue := JS.mul (JS.parseFloat amount) (Token.price l) in
  JS.div leftValue (Token.price r).

(** The string the effect passes to [setRightAmount]; [debouncedLeftAmount]
    is [leftAmount] once it has been stable for 300 ms. *)
Definition derivedRightAmount (leftToken rightToken : option Token.t)
  (debouncedLeftAmount : string) : string :=
  match leftToken, rightToken with
  | Some l, Some r =>
      if JS.str_truthy debouncedLeftAmount
      then display (rightValue l r debouncedLeftAmount)
      else ""
  | _, _ => ""
  end.

Definition conversionEffect (debouncedLeftAmount : string) (st : State) : State :=
  setRightAmount
    (derivedRightAmount (leftToken st) (rightToken st) debouncedLeftAmount) st.

Definition handleLeftAmountChange (value : string) (st : State) : State :=
  if accepted value then setLeftAmount value st else st.

Definition handleRightAmountChange (value : string) (st : State) : State :=
  if accepted value then
    let st1 := setRightAmount value st in
    match leftToken st, rightToken st with
    | Some l, Some r =>
        if JS.str_truthy value then
          let rightValue := JS.mul (JS.parseFloat value) (Token.price r) in
          let leftValue := JS.div rightValue (Token.price l) in
          setLeftAmount (display leftValue) st1
        else st1
    | _, _ => st1
    end
  else st.

Definition handleSwap (st : State) : State :=
  {| tokens := tokens st; leftToken := rightToken st;
     rightToken := leftToken st; leftAmount := rightAmount st;
     rightAmount := leftAmount st; isLoading := isLoading st;
     error := error st |}.

(** *** Loading and selecting tokens *)

Definition initial : State :=
  {| tokens := []; leftToken := None; rightToken := None;
     leftAmount := "1"; rightAmount := ""; isLoading := true; error := None |}.

Definition setTokens (v : list Token.t) (st : State) : State :=
  {| tokens := v; leftToken := leftToken st;
     rightToken := rightToken st; leftAmount := leftAmount st;
     rightAmount := rightAmount st; isLoading := isLoading st;
     error := error st |}.

Definition setLeftToken (v : option Token.t) (st : State) : State :=
  {| tokens := tokens st; leftToken := v;
     rightToken := rightToken st; leftAmount := leftAmount st;
     rightAmount := rightAmount st; isLoading := isLoading st;
     error := error st |}.

Definition setRightToken (v : option Token.t) (st : State) : State :=
  {| tokens := tokens st; leftToken := leftToken st;
     rightToken := v; leftAmount := leftAmount st;
     rightAmount := rightAmount st; isLoading := isLoading st;
     error := error st |}.

Definition setIsLoading (v : bool) (st : State) : State :=
  {| tokens := tokens st; leftToken := leftToken st;
     rightToken := rightToken st; leftAmount := leftAmount st;
     rightAmount := rightAmount st; isLoading := v;
     error := error st |}.

Definition setError (v : option string) (st : State) : State :=
  {| tokens := tokens st; leftToken := leftToken st;
     rightToken := rightToken st; leftAmount := leftAmount st;
     rightAmount := rightAmount st; isLoading := isLoading st;
     error := v |}.

(** [tokens.find((t) => t.symbol === symbol)] *)
Fixpoint find_symbol (symbol : string) (l : list Token.t) : option Token.t :=
  match l with
  | [] => None
  | t :: r => if String.eqb (Token.symbol t) symbol then Some t
              else find_symbol symbol r
  end.

(** [if (token) setLeftToken(token)] *)
Definition setLeftToken_if (o : option Token.t) (st : State) : State :=
  match o with Some _ => setLeftToken o st | None => st end.

Definition setRightToken_if (o : option Token.t) (st : State) : State :=
  match o with Some _ => setRightToken o st | None => st end.

(** The tokens shown when loading failed: the catalog at price 1. *)
Definition fallbackTokens : list Token.t :=
  (fun token =>
     {| Token.symbol := Supported.symbol token;
        Token.name := Supported.name token;
        Token.price := JS.of_Z 1;
        Token.icon := Supported.icon token;
        Token.chainId := Supported.chainId token;
        Token.address := None |}) <$> TokenService.SUPPORTED_TOKENS.

(** [fetchTokens()], given how [getAllTokensInfo()] settled. *)
Definition fetchTokens (outcome : TokenService.Settled (list Token.t))
  (st : State) : State :=
  let st1 := setError None (setIsLoading true st) in
  let st2 :=
    match outcome with
    | TokenService.Fulfilled tokenData =>
        let st2 := setTokens tokenData st1 in
        let usdcToken := find_symbol "USDC" tokenData in
        let ethToken := find_symbol "ETH" tokenData in
        setRightToken_if ethToken (setLeftToken_if usdcToken st2)
    | TokenService.Rejected _ =>
        let st2 := setError (Some "Failed to load token data") st1 in
        let st3 := setTokens fallbackTokens st2 in
        setRightToken_if (fallbackTokens !! 2%nat)
          (setLeftToken_if (fallbackTokens !! 0%nat) st3)
    end in
  setIsLoading false st2.

(** The [onChange] handlers of the two token menus. *)
Definition selectLeftToken (value : string) (st : State) : State :=
  setLeftToken_if (find_symbol value (tokens st)) st.

Definition selectRightToken (value : string) (st : State) : State :=
  setRightToken_if (find_symbol value (tokens st)) st.

(** What the user and the debounce timer do once the tokens are loaded. *)
Inductive event :=
| LeftAmountChange (value : string)
| RightAmountChange (value : string)
| Swap
| SelectLeft (value : string)
| SelectRight (value : string)
| Debounced (debouncedLeftAmount : string).

Definition handle (e : event) (st : State) : State :=
  match e with
  | LeftAmountChange value => handleLeftAmountChange value st
  | RightAmountChange value => handleRightAmountChange value st
  | Swap => handleSwap st
  | SelectLeft value => selectLeftToken value st
  | SelectRight value => selectRightToken value st
  | Debounced debouncedLeftAmount => conversionEffect debouncedLeftAmount st
  end.

(** The selected tokens are tokens of the list. *)
Definition selected_listed (st : State) : Prop :=
  (forall t, leftToken st = Some t -> t ∈ tokens st)
  /\ (forall t, rightToken st = Some t -> t ∈ tokens st).

(** *** The specification's words *)

(** "Digits with at most one decimal point". *)
Definition is_point (c : ascii) : bool := Ascii.eqb c ".".

Fixpoint count_points (s : string) : nat :=
  match s with
  | EmptyString => 0
  | String c r => (if is_point c then 1 else 0) + count_points r
  end.

Fixpoint digits_and_points (s : string) : bool :=
  match s with
  | EmptyString => true
  | String c r => (JS.is_digit c || is_point c) && digits_and_points r
  end.

Definition decimal_number (s : string) : bool :=
  digits_and_points s && (count_points s <=? 1)%nat.









(** The string has a decimal digit. *)
Fixpoint has_digit (s : string) : bool :=
  match s with
  | EmptyString => false
  | String c r => JS.is_digit c || has_digit r
  end.

(** A number that is not [NaN] and carries no minus sign. *)
Definition unsigned (x : JS.number) : Prop :=
  match x with
  | S754_nan => False
  | S754_zero sg | S754_infinity sg | S754_finite sg _ _ => sg = false
  end.

(** A token with a given price, for examples. *)
Definition priced (symbol : string) (price : JS.number) : Token.t :=
  {| Token.symbol := symbol; Token.name := symbol; Token.price := price;
     Token.icon := TokenService.getTokenIcon symbol; Token.chainId := "1";
     Token.address := None |}.

End App.

(** ** The error boundary (class [ErrorBoundary]) *)

Module ErrorBoundary.

(** An [Error], as far as the boundary looks at it. *)
Record Error := { message : string }.

Record State := { hasError : bool; error : option Error }.

(** The state the constructor sets. *)
Definition initial : State := {| hasError := false; error := None |}.

Definition getDerivedStateFromError (e : Error) : State :=
  {| hasError := true; error := Some e |}.

Definition resetError (st : State) : State :=
  {| hasError := false; error := None |}.

(** What [render()] returns: the children, what [props.fallback] makes of
    the error, or the built-in panel with its message. *)
Inductive view (V : Type) :=
| Children
| Custom (v : V)
| Panel (text : string).
Arguments Children {V}.
Arguments Custom {V} _.
Arguments Panel {V} _.

Definition render {V} (fallback : option (Error -> V)) (st : State) : view V :=
  match hasError st, error st with
  | true, Some e =>
      match fallback with
      | Some f => Custom (f e)
      | None =>
          Panel (if JS.str_truthy (message e) then message e
                 else "An unexpected error occurred")
      end
  | _, _ => Children
  end.

(** A child throws while rendering, or the user presses "Try Again". *)
Inductive event :=
| Caught (e : Error)
| TryAgain.

Definition step (st : State) (ev : event) : State :=
  match ev with
  | Caught e => getDerivedStateFromError e
  | TryAgain => resetError st
  end.

Definition run (evs : list event) : State := foldl step initial evs.

End ErrorBoundary.

(** * Properties *)

(** ** The runtime model on known values *)

Example of_Z_2500 : JS.of_Z 2500 = S754_finite false 5497558138880000 (-41).
Proof. vm_compute. reflexivity. Qed.

Example parse_tenth :
  JS.parseFloat "0.1" = S754_finite false 7205759403792794 (-56).
Proof. vm_compute. reflexivity. Qed.

Example parse_dot : JS.parseFloat "." = JS.NaN.
Proof. reflexivity. Qed.

Example parse_forms :
  JS.parseFloat "12." = JS.of_Z 12 /\
  JS.parseFloat "  -1.5e3x" = S754_finite true 6597069766656000 (-42) /\
  JS.parseFloat "1e" = JS.of_Z 1 /\
  JS.parseFloat "2e-324" = JS.pzero /\
  JS.parseFloat "1e400" = JS.Infinity /\
  JS.parseFloat "" = JS.NaN.
Proof. vm_compute. repeat split; reflexivity. Qed.

Example toFixed_forms :
  JS.toFixed (JS.parseFloat "0.0000005") 6 = "0.000000" /\
  JS.toFixed (JS.parseFloat "1.0000005") 6 = "1.000001" /\
  JS.toFixed (JS.parseFloat "-1234.5678915") 6 = "-1234.567892" /\
  JS.toFixed (JS.parseFloat "1e21") 6 = "1e+21" /\
  JS.toFixed (JS.parseFloat "123456789012345678901234567890") 6
    = "1.2345678901234568e+29".
Proof. vm_compute. repeat split; reflexivity. Qed.

(** ** The performance monitor *)

Module PerformanceMonitorFacts.
Import PerformanceMonitor.

Lemma recordMetric_counters label value pm :
  cacheHits (recordMetric label value pm) = cacheHits pm /\
  cacheMisses (recordMetric label value pm) = cacheMisses pm.
Proof.
  unfold recordMetric.
  destruct (metrics pm !! label); simpl;
    repeat match goal with |- context [match ?x with _ => _ end] =>
      destruct x end; done.
Qed.

(** The counters after a run are the accesses counted since the last
    reset. *)
Lemma counters_run cs pm :
  cacheHits (run cs pm) = hits_of cs (cacheHits pm) /\
  cacheMisses (run cs pm) = misses_of cs (cacheMisses pm).
Proof.
  revert pm. induction cs as [|c cs IH]; intros pm; [done|].
  change (run (c :: cs) pm) with (run cs (exec c pm)).
  destruct (IH (exec c pm)) as [Hh Hm]. rewrite Hh, Hm.
  destruct c as [label value| | |]; simpl; try (split; reflexivity).
  destruct (recordMetric_counters label value pm) as [-> ->]. done.
Qed.

Lemma recordMetric_lookup label value pm :
  metrics (recordMetric label value pm) !! label =
    Some (let pushed := default [] (metrics pm !! label) ++ [value] in
          if (100 <? length pushed)%nat then tail pushed else pushed).
Proof.
  unfold recordMetric.
  destruct (metrics pm !! label) as [values|] eqn:E.
  - rewrite E. simpl. apply lookup_insert_eq.
  - rewrite lookup_insert_eq. simpl. apply lookup_insert_eq.
Qed.

Lemma recordMetric_lookup_ne label value pm other :
  label <> other ->
  metrics (recordMetric label value pm) !! other = metrics pm !! other.
Proof.
  intros Hne. unfold recordMetric.
  destruct (metrics pm !! label) as [values|] eqn:E.
  - rewrite E. simpl. by rewrite lookup_insert_ne.
  - rewrite lookup_insert_eq. simpl. by rewrite !lookup_insert_ne.
Qed.

Lemma kept_length (values : list JS.number) value :
  (length values <= 100)%nat ->
  let pushed := values ++ [value] in
  (length (if (100 <? length pushed)%nat then tail pushed else pushed) <= 100)%nat.
Proof.
  intros Hlen pushed.
  assert (length pushed = S (length values)) as Hp
    by (unfold pushed; rewrite length_app; simpl; lia).
  destruct (100 <? length pushed)%nat eqn:E.
  - destruct pushed; simpl in *; lia.
  - apply Nat.ltb_ge in E. lia.
Qed.

Lemma recordMetric_bounded label value pm :
  bounded pm -> bounded (recordMetric label value pm).
Proof.
  intros Hb other values Hother.
  destruct (decide (label = other)) as [<- | Hne].
  - rewrite recordMetric_lookup in Hother. injection Hother as <-.
    apply kept_length.
    destruct (metrics pm !! label) as [old|] eqn:E; simpl; [|lia].
    exact (Hb _ _ E).
  - rewrite recordMetric_lookup_ne in Hother by done.
    exact (Hb _ _ Hother).
Qed.

Lemma exec_bounded c pm : bounded pm -> bounded (exec c pm).
Proof.
  intros Hb. destruct c; simpl.
  - by apply recordMetric_bounded.
  - exact Hb.
  - exact Hb.
  - unfold reset, bounded. simpl. apply map_Forall_empty.
Qed.

Lemma run_bounded cs pm : bounded pm -> bounded (run cs pm).
Proof.
  revert pm. induction cs as [|c cs IH]; intros pm Hb; [done|].
  apply (IH (exec c pm)), exec_bounded, Hb.
Qed.

(** C9. Whatever calls were made on a new monitor, the reported hit rate
    is [hits / (hits + misses) * 100] (in the arithmetic of JavaScript
    numbers) for the numbers of hits and misses recorded since the last
    reset, and it is [0] when there were none. *)
Theorem getCacheHitRate_spec (cs : list call) :
  let hits := hits_of cs 0 in
  let misses := misses_of cs 0 in
  getCacheHitRate (run cs new) =
    if (hits + misses =? 0)%N then JS.of_Z 0
    else JS.mul (JS.div (JS.of_Z (Z.of_N hits))
                        (JS.of_Z (Z.of_N (hits + misses))))
                (JS.of_Z 100).
Proof.
  intros hits misses. unfold getCacheHitRate.
  destruct (counters_run cs new) as [-> ->]. reflexivity.
Qed.

Example hit_rate_one_in_three :
  getCacheHitRate (run [RecordCacheHit; RecordCacheMiss; RecordCacheMiss] new)
  = S754_finite false 4691249611844266 (-47).
Proof. vm_compute. reflexivity. Qed.

(** C10. After any sequence of calls on a new monitor every label holds at
    most 100 values; and [recordMetric] leaves under its label the old
    values followed by the new one, without the oldest when that makes
    more than 100. *)
Theorem recordMetric_keeps_100 (cs : list call) (label : string)
    (value : JS.number) :
  let pm := run cs new in
  bounded pm /\
  bounded (recordMetric label value pm) /\
  metrics (recordMetric label value pm) !! label =
    Some (let pushed := default [] (metrics pm !! label) ++ [value] in
          if (100 <? length pushed)%nat then tail pushed else pushed).
Proof.
  intros pm.
  assert (bounded pm) as Hb.
  { apply run_bounded. unfold bounded, new. simpl. apply map_Forall_empty. }
  split; [exact Hb|]. split.
  - by apply recordMetric_bounded.
  - apply recordMetric_lookup.
Qed.

End PerformanceMonitorFacts.

(** ** The response cache *)

Module ResponseCacheFacts.
Import ResponseCache.

Section Facts.
Context {T : Type}.
Implicit Types (st : state (T := T)) (os : list (op (T := T))).

Lemma run_cons o os st : run (o :: os) st = run os (exec o st).
Proof. reflexivity. Qed.


(** A harmless operation leaves an entry that is fresh at [t] in place. *)
Lemma exec_harmless k t o st entry :
  harmless k t o ->
  fst st !! k = Some entry ->
  t - timestamp entry <= TTL ->
  fst (exec o st) !! k = Some entry.
Proof.
  intros Hh Hk Hfresh. destruct st as [cache pm]. simpl in Hk.
  destruct o as [key now|key d now|]; simpl in *.
  - destruct (cache !! key) as [e|] eqn:E; simpl; [|done].
    destruct (TTL <? now - timestamp e) eqn:Hexp; simpl; [|done].
    destruct (decide (key = k)) as [-> | Hne].
    + apply Z.ltb_lt in Hexp. rewrite Hk in E. injection E as <-. lia.
    + by rewrite lookup_delete_ne.
  - by rewrite lookup_insert_ne.
  - done.
Qed.

Lemma run_harmless k t os st entry :
  Forall (harmless k t) os ->
  fst st !! k = Some entry ->
  t - timestamp entry <= TTL ->
  fst (run os st) !! k = Some entry.
Proof.
  intros Hall. revert st. induction Hall as [|o os Ho _ IH]; intros st Hk Hfresh.
  - exact Hk.
  - rewrite run_cons. apply IH; [|exact Hfresh].
    by eapply exec_harmless.
Qed.


Lemma set_lookup k v t st :
  fst (set k v t st) !! k = Some {| data := v; timestamp := t |}.
Proof. destruct st as [cache pm]. simpl. apply lookup_insert_eq. Qed.

(** C2. [get(k)] after [set(k, v)] returns [v] when the clock has advanced
    by no more than the TTL, whatever happened in between that neither set
    nor cleared [k]; the read is recorded as a hit and the entry stays. *)
Theorem get_after_set_within_TTL (k : string) (v : T) (t1 t2 : Z) os st :
  t2 - t1 <= TTL ->
  Forall (harmless k t2) os ->
  let before := run os (set k v t1 st) in
  get k t2 before =
    (Some v, (fst before, PerformanceMonitor.recordCacheHit (snd before))).
Proof.
  intros Hfresh Hall before.
  assert (fst before !! k = Some {| data := v; timestamp := t1 |}) as Hk.
  { apply (run_harmless k t2); [exact Hall|apply set_lookup|simpl; lia]. }
  destruct before as [cache pm]. simpl in Hk |- *. rewrite Hk. simpl.
  destruct (TTL <? t2 - t1) eqn:E; [apply Z.ltb_lt in E; lia|done].
Qed.


End Facts.


(** A fresh entry is returned: exactly at the TTL, after a read of the same
    key and a write of another one. *)
Lemma get_after_set_within_TTL_witness :
  let before :=
    run [Get "k" 10; Set_ "j" 1%nat 20]
        (set "k" 7%nat 0 (∅, PerformanceMonitor.new)) in
  get "k" 300000 before =
    (Some 7%nat, (fst before, PerformanceMonitor.recordCacheHit (snd before))).
Proof.
  apply (get_after_set_within_TTL "k" 7%nat 0 300000).
  - vm_compute. discriminate.
  - repeat constructor; simpl; [lia|discriminate].
Defined.

End ResponseCacheFacts.

(** ** The token service *)

Module TokenServiceFacts.
Import ResponseCache TokenService.


Lemma quiet_trans s1 s2 s3 : quiet s1 s2 -> quiet s2 s3 -> quiet s1 s3.
Proof. intros [H1 H2] [H3 H4]. split; congruence. Qed.

Lemma erc20_requests_issue r s :
  erc20_requests (issue r s)
  = (erc20_requests s + if is_erc20 r then 1 else 0)%nat.
Proof.
  unfold erc20_requests, issue. simpl. rewrite filter_app, length_app.
  f_equal. destruct r; reflexivity.
Qed.

Lemma quiet_issue_price c a s : quiet s (issue (ReqPrice c a) s).
Proof. split; [done|]. rewrite erc20_requests_issue. simpl. lia. Qed.

Lemma collect_fulfilled {A} (rs : list (Settled A)) :
  Forall fulfilled rs ->
  exists l, collect rs = Fulfilled l /\ length l = length rs.
Proof.
  induction 1 as [|r rs Hr _ [l [Hl Hlen]]]; [by exists []|].
  destruct r as [a|e]; [|done].
  exists (a :: l). simpl. rewrite Hl, Hlen. done.
Qed.

Section Facts.
Variable w : World.

(** *** Asynchronous functions and their promises *)

Section Respects.
Context {A : Type} (R : State -> State -> Prop) (Q : Settled A -> Prop).
Hypothesis R_refl : forall s, R s s.
Hypothesis R_trans : forall s1 s2 s3, R s1 s2 -> R s2 s3 -> R s1 s3.

Lemma suspend_respects s0 (st : Step A) :
  respects R Q s0 st ->
  R s0 (snd (suspend st)) /\ promise_respects R Q (fst (suspend st)).
Proof. destruct st; simpl; tauto. Qed.

Lemma resume_respects (p : Promise A) s :
  promise_respects R Q p ->
  R s (snd (resume w p s)) /\ promise_respects R Q (fst (resume w p s)).
Proof.
  destruct p as [r|t c sy k|t c a k]; simpl; intros H.
  - auto.
  - apply suspend_respects, H.
  - apply suspend_respects, H.
Qed.

Lemma resume_at_respects i (ps : list (Promise A)) s :
  Forall (promise_respects R Q) ps ->
  R s (snd (resume_at w i ps s))
  /\ Forall (promise_respects R Q) (fst (resume_at w i ps s))
  /\ length (fst (resume_at w i ps s)) = length ps.
Proof.
  intros Hall. unfold resume_at.
  destruct (ps !! i) as [p|] eqn:E; [|auto].
  assert (promise_respects R Q p) as Hp
    by (eapply Forall_lookup_1; eassumption).
  destruct (resume_respects p s Hp) as [HR Hp'].
  destruct (resume w p s) as [p' s']. simpl in *.
  split; [done|]. split; [|apply length_insert].
  apply Forall_insert; assumption.
Qed.

Lemma run_schedule_respects sched (ps : list (Promise A)) s :
  Forall (promise_respects R Q) ps ->
  R s (snd (run_schedule w sched ps s))
  /\ Forall (promise_respects R Q) (fst (run_schedule w sched ps s))
  /\ length (fst (run_schedule w sched ps s)) = length ps.
Proof.
  revert ps s. induction sched as [|i sched IH]; intros ps s Hall; simpl; [auto|].
  destruct (resume_at_respects i ps s Hall) as (HR & Hall' & Hlen).
  destruct (resume_at w i ps s) as [ps' s']. simpl in *.
  destruct (IH ps' s' Hall') as (HR' & Hall'' & Hlen').
  split; [eauto|]. split; [done|congruence].
Qed.

Lemma settle_respects s0 (st : Step A) :
  respects R Q s0 st -> R s0 (snd (settle w st)) /\ Q (fst (settle w st)).
Proof.
  revert s0. induction st as [r s|s t c sy k IH|s t c a k IH]; intros s0; simpl.
  - auto.
  - intros [HR Hk]. destruct (IH _ _ _ (Hk (getAssetErc20ByChainAndSymbol w t c sy) s)).
    eauto.
  - intros [HR Hk]. destruct (IH _ _ _ (Hk (getAssetPriceInfo w t c a) s)).
    eauto.
Qed.

Lemma finish_respects (p : Promise A) s :
  promise_respects R Q p ->
  R s (snd (finish w p s)) /\ Q (fst (finish w p s)).
Proof.
  destruct p as [r|t c sy k|t c a k]; simpl; intros H.
  - auto.
  - apply settle_respects, H.
  - apply settle_respects, H.
Qed.

Lemma finish_all_respects (ps : list (Promise A)) s :
  Forall (promise_respects R Q) ps ->
  R s (snd (finish_all w ps s))
  /\ Forall Q (fst (finish_all w ps s))
  /\ length (fst (finish_all w ps s)) = length ps.
Proof.
  intros Hall. revert s. induction Hall as [|p ps Hp _ IH]; intros s; simpl; [auto|].
  destruct (finish_respects p s Hp) as [HR HQ].
  destruct (finish w p s) as [r s']. simpl in *.
  destruct (IH s') as (HR' & HQ' & Hlen).
  destruct (finish_all w ps s') as [rs s'']. simpl in *.
  split; [eauto|]. split; [by constructor|congruence].
Qed.

End Respects.

(** [Promise.all] over functions that never throw never throws, and gives
    one value per promise. *)
Lemma promise_all_fulfilled {A} (R : State -> State -> Prop)
    sched (ps : list (Promise A)) s :
  (forall s, R s s) ->
  (forall s1 s2 s3, R s1 s2 -> R s2 s3 -> R s1 s3) ->
  Forall (promise_respects R fulfilled) ps ->
  exists l s',
    promise_all w sched ps s = (Fulfilled l, s')
    /\ length l = length ps /\ R s s'.
Proof.
  intros Hrefl Htrans Hall. unfold promise_all.
  destruct (run_schedule_respects R fulfilled Hrefl Htrans sched ps s Hall)
    as (HR & Hall' & Hlen).
  destruct (run_schedule w sched ps s) as [ps' s']. simpl in *.
  destruct (finish_all_respects R fulfilled Hrefl Htrans ps' s' Hall')
    as (HR' & HQ & Hlen').
  destruct (finish_all w ps' s') as [rs s'']. simpl in *.
  destruct (collect_fulfilled rs HQ) as (l & -> & Hl).
  exists l, s''. split; [done|]. split; [congruence|eauto].
Qed.

(** *** getTokenInfo *)


Lemma apiCache_get_miss key s :
  fst (apiCache_get w key s) = None ->
  let s1 := snd (apiCache_get w key s) in
  apiCache s1 = delete key (apiCache s)
  /\ perfMonitor s1 = PerformanceMonitor.recordCacheMiss (perfMonitor s)
  /\ requests s1 = requests s /\ console s1 = console s.
Proof.
  unfold apiCache_get, get.
  destruct (apiCache s !! key) as [entry|] eqn:E; simpl.
  - destruct (TTL <? dateNow w (clockReads s) - timestamp entry); simpl;
      [done|discriminate].
  - intros _. rewrite delete_id by done. done.
Qed.

(** How [getTokenInfo] begins: it answers from the cache, or issues the
    metadata request and waits.  What runs after that request never throws
    and is quiet: it neither reads the cache nor asks for metadata. *)
Lemma getTokenInfo_start c sy s :
  match apiCache_get w (cacheKey c sy) s with
  | (Some token, s1) => getTokenInfo w c sy s = Done (Fulfilled (Some token)) s1
  | (None, s1) =>
      exists k,
        getTokenInfo w c sy s
          = AwaitErc20 (issue (ReqErc20 c sy) s1) (length (requests s1)) c sy k
        /\ forall o s', respects quiet fulfilled s' (k o s')
  end.
Proof.
  unfold getTokenInfo, mbind, async_bind, lift.
  destruct (apiCache_get w (cacheKey c sy) s) as [[token|] s1]; [reflexivity|].
  cbn. eexists. split; [reflexivity|].
  intros o s'. destruct o as [[info|]|e]; cbn; [|done|done].
  destruct (JS.opt_truthy (Erc20Asset.address info)); cbn; [|done].
  split; [apply quiet_issue_price|].
  intros o s''. destruct o as [priceInfo|e]; cbn; done.
Qed.






(** *** getAllTokensInfo *)

Lemma probe_cached tokens acc s toks :
  cached_all w tokens (apiCache s) (clockReads s) = Some toks ->
  exists s',
    probe w tokens acc s = (acc ++ toks, true, s')
    /\ apiCache s' = apiCache s /\ requests s' = requests s.
Proof.
  revert acc s toks. induction tokens as [|token tokens IH]; intros acc s toks; simpl.
  - intros [= <-]. exists s. by rewrite app_nil_r.
  - unfold apiCache_get, get.
    destruct (apiCache s !! _) as [entry|] eqn:E; [|discriminate].
    destruct (TTL <? dateNow w (clockReads s) - timestamp entry); [discriminate|].
    destruct (cached_all w tokens (apiCache s) (S (clockReads s))) as [rest|] eqn:C;
      [|discriminate].
    intros [= <-]. simpl.
    edestruct (IH (acc ++ [data entry])) as (s' & -> & Hc & Hr); [exact C|].
    exists s'. by rewrite <- app_assoc.
Qed.

Lemma probe_uncached tokens acc s :
  cached_all w tokens (apiCache s) (clockReads s) = None ->
  snd (fst (probe w tokens acc s)) = false
  /\ requests (snd (probe w tokens acc s)) = requests s.
Proof.
  revert acc s. induction tokens as [|token tokens IH]; intros acc s; simpl;
    [discriminate|].
  unfold apiCache_get, get.
  destruct (apiCache s !! _) as [entry|] eqn:E; [|done].
  destruct (TTL <? dateNow w (clockReads s) - timestamp entry); [done|].
  destruct (cached_all w tokens (apiCache s) (S (clockReads s))) as [rest|] eqn:C;
    [discriminate|].
  intros _. simpl.
  match goal with
  | |- context [probe w tokens _ ?s1] => exact (IH (acc ++ [data entry]) s1 C)
  end.
Qed.




(** The two paths of [getAllTokensInfo]. *)
Lemma getAllTokensInfo_cached sched s toks :
  cached_all w SUPPORTED_TOKENS (apiCache s) (clockReads s) = Some toks ->
  exists s',
    getAllTokensInfo w sched s = (Fulfilled toks, s')
    /\ apiCache s' = apiCache s /\ requests s' = requests s.
Proof.
  intros H. unfold getAllTokensInfo.
  destruct (probe_cached SUPPORTED_TOKENS [] s toks H) as (s' & -> & Hc & Hr).
  exists s'. done.
Qed.





Lemma getTokenInfo_never_rejects c sy s :
  fulfilled (fst (await w (getTokenInfo w c sy) s)).
Proof.
  unfold await. pose proof (getTokenInfo_start c sy s) as H.
  destruct (apiCache_get w (cacheKey c sy) s) as [[token|] s1].
  - by rewrite H.
  - destruct H as (k & -> & Hk). simpl.
    eapply (settle_respects quiet fulfilled quiet_trans), Hk.
Qed.

Lemma issue_ticket r s : length (requests (issue r s)) = S (length (requests s)).
Proof. unfold issue. simpl. rewrite length_app. simpl. lia. Qed.

(** C6 (as amended). [getTokenInfo] never throws.  If the cache has no
    fresh entry and the metadata lookup throws or returns no token, the
    result is absent and nothing is written: the cache is what it was,
    less the stale entry under the key that the initial read evicted.  If
    the metadata lookup succeeds and the price lookup is not made (no
    address) or gives no price, the result is the token built from the
    metadata with price [0], and the cache holds it under the key. *)
Theorem getTokenInfo_fails_soft (chainId symbol : string) (s : State) :
  let key := cacheKey chainId symbol in
  let ticket := length (requests s) in
  let metadata := getAssetErc20ByChainAndSymbol w ticket chainId symbol in
  let outcome := await w (getTokenInfo w chainId symbol) s in
  fulfilled (fst outcome)
  /\ (fst (apiCache_get w key s) = None ->
      (metadata = Fulfilled None \/ exists e, metadata = Rejected e) ->
      fst outcome = Fulfilled None
      /\ apiCache (snd outcome) = delete key (apiCache s))
  /\ (fst (apiCache_get w key s) = None ->
      forall info,
        metadata = Fulfilled (Some info) ->
        (JS.opt_truthy (Erc20Asset.address info) = true ->
         no_price (getAssetPriceInfo w (S ticket) chainId
                     (default "" (Erc20Asset.address info)))) ->
        let token :=
          {| Token.symbol := JS.str_or_else (Erc20Asset.symbol info) symbol;
             Token.name := JS.str_or_else (Erc20Asset.name info) symbol;
             Token.price := JS.pzero;
             Token.icon := getTokenIcon symbol;
             Token.chainId := chainId;
             Token.address := Erc20Asset.address info |} in
        exists now,
          fst outcome = Fulfilled (Some token)
          /\ apiCache (snd outcome) !! key
             = Some {| data := token; timestamp := now |}).
Proof.
  intros key ticket metadata outcome.
  split; [apply getTokenInfo_never_rejects|].
  assert (fst (apiCache_get w key s) = None ->
          exists s1, apiCache_get w key s = (None, s1)
                     /\ apiCache s1 = delete key (apiCache s)
                     /\ requests s1 = requests s) as Hmiss.
  { intros Hm. destruct (apiCache_get_miss key s Hm) as (Hc & _ & Hr & _).
    destruct (apiCache_get w key s) as [r s1]. simpl in *. subst r. eauto. }
  split.
  - intros Hm Hmeta. destruct (Hmiss Hm) as (s1 & E & Hc & Hr).
    subst outcome. unfold await, getTokenInfo, mbind, async_bind, lift.
    fold key. rewrite E. cbn. rewrite Hr. fold ticket metadata.
    destruct Hmeta as [-> | [e ->]]; cbn; done.
  - intros Hm info Hmeta Hprice token. destruct (Hmiss Hm) as (s1 & E & Hc & Hr).
    subst outcome. unfold await, getTokenInfo, mbind, async_bind, lift.
    fold key. rewrite E. cbn. rewrite Hr. fold ticket metadata.
    rewrite Hmeta. cbn.
    destruct (JS.opt_truthy (Erc20Asset.address info)) eqn:T; cbn.
    + rewrite length_app, Hr. simpl. rewrite Nat.add_1_r. fold ticket.
      specialize (Hprice eq_refl).
      destruct (getAssetPriceInfo w (S ticket) chainId
                  (default "" (Erc20Asset.address info))) as [priceInfo|e]; cbn.
      * simpl in Hprice. unfold unitPrice_or_0. rewrite Hprice.
        eexists. split; [reflexivity|]. apply lookup_insert_eq.
      * eexists. split; [reflexivity|]. apply lookup_insert_eq.
    + eexists. split; [reflexivity|]. apply lookup_insert_eq.
Qed.

End Facts.

(** C6 as stated fails on a stale entry: the fetch that finds no token
    leaves the cache without the entry it started with. *)
Lemma getTokenInfo_evicts_stale_entry :
  ~ (forall (w : World) (chainId symbol : string) (s : State),
       let outcome := await w (getTokenInfo w chainId symbol) s in
       fst (apiCache_get w (cacheKey chainId symbol) s) = None ->
       getAssetErc20ByChainAndSymbol w (length (requests s)) chainId symbol
         = Fulfilled None ->
       fst outcome = Fulfilled None
       /\ apiCache (snd outcome) = apiCache s).
Proof.
  intros H.
  destruct (H world_no_token "1" "USDC" state_stale eq_refl eq_refl) as [_ Hc].
  apply (f_equal (fun m : gmap string (CacheEntry Token.t) =>
                    bool_decide (is_Some (m !! "token-1-USDC")))) in Hc.
  vm_compute in Hc. discriminate.
Qed.

(** C6 on two runs: the API is unreachable; the price of ETH cannot be
    had. *)
Lemma getTokenInfo_fails_soft_witness :
  (fst (await world_down (getTokenInfo world_down "1" "USDC") initial)
     = Fulfilled None
   /\ apiCache (snd (await world_down (getTokenInfo world_down "1" "USDC") initial))
      = delete (cacheKey "1" "USDC") (apiCache initial))
  /\ (exists now,
        fst (await world_partial (getTokenInfo world_partial "8453" "ETH") initial)
          = Fulfilled (Some {| Token.symbol := "ETH"; Token.name := "ETH";
                               Token.price := JS.pzero; Token.icon := "Ξ";
                               Token.chainId := "8453";
                               Token.address := Some "0xETH" |})
        /\ apiCache (snd (await world_partial
                            (getTokenInfo world_partial "8453" "ETH") initial))
             !! "token-8453-ETH"
           = Some {| data := {| Token.symbol := "ETH"; Token.name := "ETH";
                                Token.price := JS.pzero; Token.icon := "Ξ";
                                Token.chainId := "8453";
                                Token.address := Some "0xETH" |};
                     timestamp := now |}).
Proof.
  split.
  - apply (proj1 (proj2 (getTokenInfo_fails_soft world_down "1" "USDC" initial)));
      [reflexivity|right; eexists; reflexivity].
  - apply (proj2 (proj2 (getTokenInfo_fails_soft world_partial "8453" "ETH" initial))
             eq_refl
             {| Erc20Asset.symbol := Some "ETH"; Erc20Asset.name := None;
                Erc20Asset.address := Some "0xETH" |});
      [reflexivity|intros _; exact I].
Defined.



(** On concrete runs: every fetch fails; some fail, answered out of
    order. *)
Example every_fetch_fails :
  fst (getAllTokensInfo world_down [] initial)
  = Fulfilled (fallback <$> SUPPORTED_TOKENS)
  /\ Token.price <$> (fallback <$> SUPPORTED_TOKENS)
     = [JS.of_Z 1; JS.of_Z 1; JS.of_Z 2500; JS.of_Z 45000].
Proof. vm_compute. split; reflexivity. Qed.

Example some_fetches_fail :
  (Token.symbol <$> default [] (value_of (fst
     (getAllTokensInfo world_partial [2; 0; 2; 5]%nat initial)))
   = ["USDC"; "USDT"; "ETH"; "WBTC"])
  /\ (Token.address <$> default [] (value_of (fst
     (getAllTokensInfo world_partial [2; 0; 2; 5]%nat initial)))
   = [Some "0xUSDC"; None; Some "0xETH"; Some "0xWBTC"]).
Proof. vm_compute. split; reflexivity. Qed.

End TokenServiceFacts.

(** ** The amount fields *)

Module AppFacts.
Import App.

Lemma append_is_empty (s1 s2 : string) : s1 +:+ s2 = "" -> s1 = "" /\ s2 = "".
Proof. destruct s1; simpl; [done|discriminate]. Qed.

(** *** The matcher decides the pattern's language *)

Lemma matches_empty_nullable r s : matches r s -> s = "" -> nullable r = true.
Proof.
  induction 1 as [ |c Hc|c|r1 r2 s1 s2 _ IH1 _ IH2|r1 r2 s _ IH|r1 r2 s _ IH
                  |r|r s1 s2 _ _ _ _]; intros Hs; simpl; try done.
  - apply append_is_empty in Hs as [-> ->]. by rewrite IH1, IH2.
  - by rewrite IH.
  - rewrite (IH Hs). apply orb_true_r.
Qed.

Lemma nullable_matches_empty r : nullable r = true -> matches r "".
Proof.
  induction r as [ | | |c|r1 IH1 r2 IH2|r1 IH1 r2 IH2|r IH]; simpl; intros H;
    try discriminate.
  - constructor.
  - apply andb_true_iff in H as [H1 H2].
    change "" with ("" +:+ ""). constructor; auto.
  - apply orb_true_iff in H as [H|H]; [apply MAltL|apply MAltR]; auto.
  - constructor.
Qed.

Lemma deriv_sound a r s : matches (deriv a r) s -> matches r (String a s).
Proof.
  revert s. induction r as [ | | |c|r1 IH1 r2 IH2|r1 IH1 r2 IH2|r IH];
    simpl; intros s H.
  - inversion H.
  - inversion H.
  - destruct (JS.is_digit a) eqn:E; inversion H; subst. by constructor.
  - destruct (Ascii.eqb a c) eqn:E; inversion H; subst.
    apply Ascii.eqb_eq in E as ->. constructor.
  - destruct (nullable r1) eqn:N.
    + inversion H as [ | | | |? ? ? H'|? ? ? H'| | ]; subst.
      * inversion H' as [ | | |? ? s1 s2 H1 H2| | | | ]; subst.
        change (String a (s1 +:+ s2)) with (String a s1 +:+ s2).
        constructor; auto.
      * change (String a s) with ("" +:+ String a s).
        constructor; [by apply nullable_matches_empty|auto].
    + inversion H as [ | | |? ? s1 s2 H1 H2| | | | ]; subst.
      change (String a (s1 +:+ s2)) with (String a s1 +:+ s2).
      constructor; auto.
  - inversion H; subst; [apply MAltL|apply MAltR]; auto.
  - inversion H as [ | | |? ? s1 s2 H1 H2| | | | ]; subst.
    change (String a (s1 +:+ s2)) with (String a s1 +:+ s2).
    constructor; auto.
Qed.

Lemma deriv_complete a r t :
  matches r t -> forall s, t = String a s -> matches (deriv a r) s.
Proof.
  induction 1 as [ |c Hc|c|r1 r2 s1 s2 H1 IH1 H2 IH2|r1 r2 s0 _ IH|r1 r2 s0 _ IH
                  |r|r s1 s2 H1 IH1 H2 IH2]; intros s Hs; simpl.
  - discriminate.
  - injection Hs as -> <-. rewrite Hc. constructor.
  - injection Hs as -> <-. rewrite Ascii.eqb_refl. constructor.
  - destruct s1 as [|c s1]; simpl in Hs.
    + rewrite (matches_empty_nullable _ _ H1 eq_refl).
      apply MAltR. auto.
    + injection Hs as -> <-.
      destruct (nullable r1); [apply MAltL|]; constructor; auto.
  - apply MAltL. auto.
  - apply MAltR. auto.
  - discriminate.
  - destruct s1 as [|c s1]; simpl in Hs.
    + auto.
    + injection Hs as -> <-. constructor; auto.
Qed.

Lemma test_matches r s : test r s = true <-> matches r s.
Proof.
  revert r. induction s as [|a s IH]; intros r; simpl.
  - split; [apply nullable_matches_empty|].
    intros H. by eapply matches_empty_nullable.
  - rewrite IH. split; [apply deriv_sound|].
    intros H. by eapply deriv_complete.
Qed.

(** *** The language of [\d*\.?\d*] *)

Lemma point_not_digit c : is_point c = true -> JS.is_digit c = false.
Proof. unfold is_point. intros H. apply Ascii.eqb_eq in H as ->. reflexivity. Qed.

Lemma digit_not_point c : JS.is_digit c = true -> is_point c = false.
Proof.
  intros H. destruct (is_point c) eqn:E; [|done].
  apply point_not_digit in E. congruence.
Qed.

Lemma star_digit_all r s : matches r s -> r = Star Digit -> all_digits s = true.
Proof.
  induction 1 as [ | | | | | | |r0 s1 s2 H1 _ H2 IH2]; intros Hr;
    try discriminate; [done|].
  injection Hr as ->. inversion H1 as [ |c Hc| | | | | | ]; subst.
  change (JS.is_digit c && all_digits s2 = true).
  by rewrite Hc, (IH2 eq_refl).
Qed.

Lemma all_digits_star s : all_digits s = true -> matches (Star Digit) s.
Proof.
  induction s as [|c s IH]; simpl; intros H; [constructor|].
  apply andb_true_iff in H as [Hc Hs].
  change (String c s) with (String c "" +:+ s).
  constructor; [by constructor|auto].
Qed.

Lemma all_digits_plain s :
  all_digits s = true -> digits_and_points s = true /\ count_points s = 0%nat.
Proof.
  induction s as [|c s IH]; simpl; intros H; [done|].
  apply andb_true_iff in H as [Hc Hs]. destruct (IH Hs) as [-> ->].
  rewrite Hc, (digit_not_point c Hc). done.
Qed.

Lemma plain_all_digits s :
  digits_and_points s = true -> count_points s = 0%nat -> all_digits s = true.
Proof.
  induction s as [|c s IH]; simpl; intros H Hn; [done|].
  apply andb_true_iff in H as [Hc Hs].
  destruct (is_point c) eqn:E; [discriminate|].
  rewrite orb_false_r in Hc. rewrite Hc. simpl. auto.
Qed.

Lemma digits_and_points_app s1 s2 :
  digits_and_points (s1 +:+ s2) = digits_and_points s1 && digits_and_points s2.
Proof.
  induction s1 as [|c s1 IH]; simpl; [done|]. by rewrite IH, andb_assoc.
Qed.

Lemma count_points_app s1 s2 :
  count_points (s1 +:+ s2) = (count_points s1 + count_points s2)%nat.
Proof. induction s1 as [|c s1 IH]; simpl; [done|]. rewrite IH. lia. Qed.

Lemma amountPattern_decimal s : matches amountPattern s -> decimal_number s = true.
Proof.
  unfold amountPattern, Opt. intros H.
  inversion H as [ | | |? ? s1 s23 H1 H23| | | | ]; subst.
  inversion H23 as [ | | |? ? s2 s3 H2 H3| | | | ]; subst.
  apply (fun h => star_digit_all _ _ h eq_refl) in H1, H3.
  apply all_digits_plain in H1 as [D1 C1], H3 as [D3 C3].
  unfold decimal_number.
  rewrite !digits_and_points_app, !count_points_app, D1, D3, C1, C3.
  inversion H2 as [ | | | |? ? ? H2'|? ? ? H2'| | ]; subst;
    inversion H2'; subst; reflexivity.
Qed.

Lemma decimal_amountPattern s : decimal_number s = true -> matches amountPattern s.
Proof.
  unfold decimal_number. intros H. apply andb_true_iff in H as [Hd Hc].
  apply Nat.leb_le in Hc.
  induction s as [|c s IH].
  - change "" with ("" +:+ ("" +:+ "")).
    constructor; [constructor|].
    constructor; [apply MAltR|]; constructor.
  - simpl in Hd, Hc. apply andb_true_iff in Hd as [Hch Hd].
    destruct (is_point c) eqn:E.
    + apply Ascii.eqb_eq in E as ->.
      change (String "." s) with ("" +:+ (String "." "" +:+ s)).
      constructor; [constructor|].
      constructor; [apply MAltL; constructor|].
      apply all_digits_star, plain_all_digits; [done|lia].
    + rewrite orb_false_r in Hch.
      specialize (IH Hd ltac:(lia)).
      inversion IH as [ | | |? ? s1 s23 H1 H23| | | | ]; subst.
      change (String c (s1 +:+ s23)) with ((String c "" +:+ s1) +:+ s23).
      constructor; [|done].
      constructor; [by constructor|done].
Qed.

Lemma test_amountPattern s : test amountPattern s = decimal_number s.
Proof.
  apply eq_true_iff_eq. rewrite test_matches.
  split; [apply amountPattern_decimal|apply decimal_amountPattern].
Qed.

Lemma accepted_decimal value : accepted value = decimal_number value.
Proof.
  unfold accepted. rewrite test_amountPattern.
  destruct (String.eqb_spec value "") as [->|_]; reflexivity.
Qed.


(** *** Rounding to six decimals *)


(** *** Numerals *)

















Example zero_price_displays_Infinity :
  derivedRightAmount (Some (priced "USDC" (JS.of_Z 1))) (Some (priced "ETH" JS.pzero)) "1" = "Infinity".
Proof. vm_compute. reflexivity. Qed.

End AppFacts.

(** * Further properties *)

(** ** The performance monitor: what the arrays hold *)

Module PerformanceMonitorMore.
Import PerformanceMonitor PerformanceMonitorFacts.

Lemma last_n_snoc {A} (l : list A) (x : A) :
  last_n 100 (l ++ [x]) =
    (let pushed := last_n 100 l ++ [x] in
     if (100 <? length pushed)%nat then tail pushed else pushed).
Proof.
  unfold last_n. rewrite !length_app, length_drop. simpl.
  destruct (100 <? length l - (length l - 100) + 1)%nat eqn:E.
  - apply Nat.ltb_lt in E.
    assert (100 <= length l)%nat as Hl by lia.
    replace (length l + 1 - 100)%nat with (S (length l - 100)) by lia.
    rewrite drop_app_le by lia.
    destruct (drop (length l - 100) l) as [|y rest] eqn:D.
    + apply (f_equal length) in D. rewrite length_drop in D. simpl in D. lia.
    + simpl. f_equal.
      change rest with (drop 1 (y :: rest)). rewrite <- D, drop_drop.
      f_equal. lia.
  - apply Nat.ltb_ge in E.
    assert (length l < 100)%nat as Hl by lia.
    replace (length l + 1 - 100)%nat with 0%nat by lia.
    replace (length l - 100)%nat with 0%nat by lia. reflexivity.
Qed.

Lemma length_last_n {A} n (l : list A) :
  length (last_n n l) = (length l `min` n)%nat.
Proof. unfold last_n. rewrite length_drop. lia. Qed.

Lemma window_snoc (vs : list JS.number) v :
  window (vs ++ [v]) =
    Some (let pushed := default [] (window vs) ++ [v] in
          if (100 <? length pushed)%nat then tail pushed else pushed).
Proof.
  destruct vs as [|v0 vs]; [reflexivity|].
  change ((v0 :: vs) ++ [v]) with (v0 :: (vs ++ [v])).
  unfold window at 1.
  change (v0 :: (vs ++ [v])) with ((v0 :: vs) ++ [v]).
  rewrite last_n_snoc. reflexivity.
Qed.

(** The map follows the values recorded, label by label. *)
Lemma run_window label cs pm acc :
  metrics pm !! label = window acc ->
  metrics (run cs pm) !! label = window (recorded label cs acc).
Proof.
  revert pm acc. induction cs as [|c cs IH]; intros pm acc H; [exact H|].
  change (run (c :: cs) pm) with (run cs (exec c pm)).
  destruct c as [l v| | |]; simpl.
  - apply IH. destruct (String.eqb_spec l label) as [->|Hne].
    + rewrite recordMetric_lookup, H. symmetry. apply window_snoc.
    + rewrite recordMetric_lookup_ne by done. exact H.
  - apply IH. exact H.
  - apply IH. exact H.
  - apply IH. reflexivity.
Qed.

(** X1. After any sequence of calls on a new monitor, the array stored
    under a label holds the last 100 of the values recorded under that
    label since the last [reset], oldest first; a label under which
    nothing was recorded since then has no array. *)
Theorem metrics_last_100 (cs : list call) (label : string) :
  metrics (run cs new) !! label
  = match recorded label cs [] with
    | [] => None
    | vs => Some (last_n 100 vs)
    end.
Proof.
  rewrite (run_window label cs new []) by reflexivity.
  unfold window. by destruct (recorded label cs []).
Qed.

(** X2. [getAverageMetric(label)] is 0 when nothing was recorded under
    the label since the last [reset]; otherwise it is the sum, taken from
    0 in the order of recording, of the last 100 values recorded, divided
    by their number. *)
Theorem getAverageMetric_window (cs : list call) (label : string) :
  getAverageMetric label (run cs new)
  = match recorded label cs [] with
    | [] => JS.pzero
    | vs =>
        JS.div (foldl JS.add JS.pzero (last_n 100 vs))
               (JS.of_Z (Z.of_nat (length vs `min` 100)))
    end.
Proof.
  unfold getAverageMetric.
  rewrite (run_window label cs new []) by reflexivity.
  destruct (recorded label cs []) as [|v vs] eqn:E; [reflexivity|].
  unfold window. rewrite <- (length_last_n 100 (v :: vs)).
  destruct (last_n 100 (v :: vs)) as [|y rest] eqn:L; [|reflexivity].
  apply (f_equal length) in L. rewrite length_last_n in L. simpl in L. lia.
Qed.

Lemma getAverageMetric_frame label pm pm' :
  metrics pm' !! label = metrics pm !! label ->
  getAverageMetric label pm' = getAverageMetric label pm.
Proof. unfold getAverageMetric. by intros ->. Qed.

(** X3. Metrics and cache counters do not disturb each other: recording
    a metric leaves the hit rate as it is, recording a hit or a miss
    leaves every average as it is, and recording under one label leaves
    the average of every other label as it is. *)
Theorem metrics_and_counters_independent (label other : string)
    (value : JS.number) (pm : t) :
  getCacheHitRate (recordMetric label value pm) = getCacheHitRate pm
  /\ getAverageMetric other (recordCacheHit pm) = getAverageMetric other pm
  /\ getAverageMetric other (recordCacheMiss pm) = getAverageMetric other pm
  /\ (label <> other ->
      getAverageMetric other (recordMetric label value pm)
      = getAverageMetric other pm).
Proof.
  split.
  - unfold getCacheHitRate.
    destruct (recordMetric_counters label value pm) as [-> ->]. reflexivity.
  - split; [reflexivity|]. split; [reflexivity|].
    intros Hne. apply getAverageMetric_frame.
    by apply recordMetric_lookup_ne.
Qed.

Lemma metrics_and_counters_independent_witness :
  getAverageMetric "api-call"
    (recordMetric "render" (JS.of_Z 5) (recordMetric "api-call" (JS.of_Z 3) new))
  = getAverageMetric "api-call" (recordMetric "api-call" (JS.of_Z 3) new).
Proof.
  apply (metrics_and_counters_independent "render" "api-call").
  discriminate.
Defined.





End PerformanceMonitorMore.

(** ** The response cache: reads and writes *)

Module ResponseCacheMore.
Import ResponseCache ResponseCacheFacts.

Section More.
Context {T : Type}.
Implicit Types (st : state (T := T)) (os : list (op (T := T))).

(** X5. [get] returns a value only from an entry that is not older than
    the TTL, and then it leaves the cache as it is. *)
Theorem get_returns_fresh (k : string) (now : Z) st (v : T) :
  fst (get k now st) = Some v ->
  (exists entry,
     fst st !! k = Some entry /\ data entry = v
     /\ now - timestamp entry <= TTL)
  /\ fst (snd (get k now st)) = fst st.
Proof.
  destruct st as [cache pm]. simpl.
  destruct (cache !! k) as [entry|] eqn:E; simpl; [|discriminate].
  destruct (TTL <? now - timestamp entry) eqn:X; simpl; [discriminate|].
  intros [= <-]. apply Z.ltb_ge in X. eauto.
Qed.

Lemma exec_counts o st :
  (PerformanceMonitor.cacheHits (snd (exec o st))
   + PerformanceMonitor.cacheMisses (snd (exec o st))
   = PerformanceMonitor.cacheHits (snd st)
     + PerformanceMonitor.cacheMisses (snd st) + reads [o])%N
  /\ PerformanceMonitor.metrics (snd (exec o st))
     = PerformanceMonitor.metrics (snd st).
Proof.
  destruct st as [cache pm]. destruct o as [key now|key d now|]; simpl.
  - destruct (cache !! key) as [entry|]; simpl; [|split; [lia|done]].
    destruct (TTL <? now - timestamp entry); simpl; split; (lia || done).
  - split; [lia|done].
  - split; [lia|done].
Qed.

Lemma reads_cons o os : reads (o :: os) = (reads [o] + reads os)%N.
Proof. destruct o; simpl; lia. Qed.

(** X6. Every [get] is counted by the monitor exactly once, as a hit when
    it returns a value and as a miss when it returns [null]; [set] and
    [clear] are not counted; and no cache operation records a metric. *)
Theorem reads_are_counted (k : string) (now : Z) os st :
  let pm := snd st in
  let pm' := snd (run os st) in
  (PerformanceMonitor.cacheHits pm' + PerformanceMonitor.cacheMisses pm'
   = PerformanceMonitor.cacheHits pm + PerformanceMonitor.cacheMisses pm
     + reads os)%N
  /\ PerformanceMonitor.metrics pm' = PerformanceMonitor.metrics pm
  /\ snd (snd (get k now st))
     = match fst (get k now st) with
       | Some _ => PerformanceMonitor.recordCacheHit pm
       | None => PerformanceMonitor.recordCacheMiss pm
       end.
Proof.
  intros pm pm'. split; [|split].
  - subst pm pm'. revert st. induction os as [|o os IH]; intros st.
    + simpl. lia.
    + rewrite run_cons, reads_cons, IH.
      destruct (exec_counts o st) as [-> _]. lia.
  - subst pm pm'. revert st. induction os as [|o os IH]; intros st; [done|].
    rewrite run_cons, IH. apply exec_counts.
  - subst pm. destruct st as [cache pm0]. simpl.
    destruct (cache !! k) as [entry|]; simpl; [|done].
    by destruct (TTL <? now - timestamp entry).
Qed.

Lemma get_result_monitor (k : string) (now : Z)
    (cache : gmap string (CacheEntry T)) (pm pm' : PerformanceMonitor.t) :
  fst (get k now (cache, pm)) = fst (get k now (cache, pm')).
Proof.
  simpl. destruct (cache !! k) as [entry|]; [|done].
  by destruct (TTL <? now - timestamp entry).
Qed.

(** X7. Reading does not change what a later read returns: as the clock
    does not run backwards, an entry that [get] evicts would be expired
    for the later read as well. *)
Theorem get_transparent (k k' : string) (now now' : Z) st :
  now <= now' ->
  fst (get k' now' (snd (get k now st))) = fst (get k' now' st).
Proof.
  intros Hle. destruct st as [cache pm].
  unfold get at 2.
  destruct (cache !! k) as [entry|] eqn:E; [|apply get_result_monitor].
  destruct (TTL <? now - timestamp entry) eqn:X; [|apply get_result_monitor].
  cbn [snd]. simpl.
  destruct (decide (k = k')) as [<- | Hne].
  - rewrite lookup_delete_eq, E. simpl.
    apply Z.ltb_lt in X.
    destruct (TTL <? now' - timestamp entry) eqn:X'; [done|].
    apply Z.ltb_ge in X'. lia.
  - rewrite lookup_delete_ne by done.
    destruct (cache !! k') as [entry'|]; [|done].
    by destruct (TTL <? now' - timestamp entry').
Qed.

(** X8. Of two writes under one key the later one stands, the earlier
    one leaving no trace; writes under different keys can be exchanged. *)
Theorem set_set (k k' : string) (v v' : T) (t t' : Z) st :
  set k v' t' (set k v t st) = set k v' t' st
  /\ (k <> k' ->
      set k v t (set k' v' t' st) = set k' v' t' (set k v t st)).
Proof.
  destruct st as [cache pm]. simpl. split.
  - by rewrite insert_insert_eq.
  - intros Hne. f_equal. by apply insert_insert_ne.
Qed.

(** X9. A write or a read under one key, evicting or not, leaves the
    entries under all other keys as they are. *)
Theorem other_keys_untouched (k k' : string) (v : T) (now : Z) st :
  k <> k' ->
  fst (set k v now st) !! k' = fst st !! k'
  /\ fst (snd (get k now st)) !! k' = fst st !! k'.
Proof.
  intros Hne. destruct st as [cache pm]. simpl. split.
  - by apply lookup_insert_ne.
  - destruct (cache !! k) as [entry|]; simpl; [|done].
    destruct (TTL <? now - timestamp entry); simpl; [|done].
    by apply lookup_delete_ne.
Qed.

Lemma run_gets_empty os (pm : PerformanceMonitor.t) :
  Forall (fun o => forall key d t, o <> Set_ key d t) os ->
  fst (run os (∅, pm)) = ∅.
Proof.
  intros Hall. revert pm. induction Hall as [|o os Ho _ IH]; intros pm; [done|].
  rewrite run_cons. destruct o as [key now|key d now|]; simpl.
  - rewrite lookup_empty. simpl. apply IH.
  - by destruct (Ho key d now).
  - apply IH.
Qed.

(** X10. [clear] leaves the monitor's counters alone, and after it every
    [get], under any key and at any time, returns [null] until the next
    [set]. *)
Theorem clear_forgets (k : string) (now : Z) os st :
  Forall (fun o => forall key d t, o <> Set_ key d t) os ->
  snd (clear st) = snd st
  /\ fst (get k now (run os (clear st))) = None.
Proof.
  intros Hall. destruct st as [cache pm]. simpl. split; [done|].
  pose proof (run_gets_empty os pm Hall) as He.
  destruct (run os (∅, pm)) as [cache' pm']. simpl in *. subst cache'.
  by rewrite lookup_empty.
Qed.

End More.

Lemma get_returns_fresh_witness :
  (exists entry,
     fst (set "k" 7%nat 10 (∅, PerformanceMonitor.new)) !! "k" = Some entry
     /\ data entry = 7%nat /\ 20 - timestamp entry <= TTL)
  /\ fst (snd (get "k" 20 (set "k" 7%nat 10 (∅, PerformanceMonitor.new))))
     = fst (set "k" 7%nat 10 (∅, PerformanceMonitor.new)).
Proof. apply (get_returns_fresh "k" 20 _ 7%nat). reflexivity. Defined.

Lemma get_transparent_witness :
  fst (get "k" 400000 (snd (get "k" 300001
         (set "k" 7%nat 0 (∅, PerformanceMonitor.new)))))
  = fst (get "k" 400000 (set "k" 7%nat 0 (∅, PerformanceMonitor.new))).
Proof. apply get_transparent. lia. Defined.

Lemma set_set_witness :
  set "a" 1%nat 5 (set "b" 2%nat 6 (∅, PerformanceMonitor.new))
  = set "b" 2%nat 6 (set "a" 1%nat 5 (∅, PerformanceMonitor.new)).
Proof. apply (set_set "a" "b" 1%nat 2%nat 5 6). discriminate. Defined.

Lemma other_keys_untouched_witness :
  fst (set "a" 1%nat 5 (set "b" 2%nat 6 (∅, PerformanceMonitor.new))) !! "b"
  = fst (set "b" 2%nat 6 (∅, PerformanceMonitor.new)) !! "b"
  /\ fst (snd (get "a" 5 (set "b" 2%nat 6 (∅, PerformanceMonitor.new)))) !! "b"
     = fst (set "b" 2%nat 6 (∅, PerformanceMonitor.new)) !! "b".
Proof. apply (other_keys_untouched "a" "b"). discriminate. Defined.

Lemma clear_forgets_witness :
  snd (clear (set "k" 7%nat 0 (∅, PerformanceMonitor.new)))
  = snd (set "k" 7%nat 0 (∅, PerformanceMonitor.new))
  /\ fst (get "k" 1 (run [Get "j" 1; Clear]
                       (clear (set "k" 7%nat 0 (∅, PerformanceMonitor.new)))))
     = None.
Proof.
  apply clear_forgets. repeat constructor; discriminate.
Defined.

End ResponseCacheMore.

(** ** The token service: keys, single calls, the whole catalog *)

Module TokenServiceMore.
Import ResponseCache TokenService TokenServiceFacts.

(** *** Cache keys and icons *)

Lemma hyphen_free_app s1 s2 :
  hyphen_free (s1 +:+ s2) = hyphen_free s1 && hyphen_free s2.
Proof.
  induction s1 as [|c s1 IH]; [done|].
  change (negb (Ascii.eqb c "-") && hyphen_free (s1 +:+ s2)
          = (negb (Ascii.eqb c "-") && hyphen_free s1) && hyphen_free s2).
  rewrite IH. by rewrite andb_assoc.
Qed.

(** Splitting at the only hyphen. *)
Lemma only_hyphen c c' sy sy' :
  hyphen_free c' = true -> hyphen_free sy' = true ->
  c +:+ "-" +:+ sy = c' +:+ "-" +:+ sy' -> c = c' /\ sy = sy'.
Proof.
  intros H' Hsy'. revert c.
  induction c' as [|a' c' IH]; intros [|a c] Heq; cbn in *.
  - by injection Heq.
  - injection Heq as -> Heq.
    assert (hyphen_free (c +:+ "-" +:+ sy) = false) as Hf
      by (rewrite hyphen_free_app; cbn; apply andb_false_r).
    rewrite Heq in Hf. change (hyphen_free sy' = false) in Hf. congruence.
  - injection Heq as <- _. by rewrite Ascii.eqb_refl in H'.
  - apply andb_true_iff in H' as [_ H'].
    injection Heq as -> Heq. destruct (IH H' c Heq) as [-> ->]. done.
Qed.

(** X11. A cache key names one token only: if a chain id and a symbol
    without hyphens have the key of some pair, they are that pair.  (With
    hyphens ["1-2"], ["X"] and ["1"], ["2-X"] share a key.) *)
Theorem cacheKey_inj (c c' sy sy' : string) :
  hyphen_free c' = true -> hyphen_free sy' = true ->
  cacheKey c sy = cacheKey c' sy' -> c = c' /\ sy = sy'.
Proof.
  intros H H'. unfold cacheKey. intros Heq.
  apply (only_hyphen c c' sy sy' H H').
  by injection Heq.
Qed.

Lemma cacheKey_inj_witness : "1" = "1" /\ "USDC" = "USDC".
Proof. apply (cacheKey_inj "1" "1" "USDC" "USDC"); reflexivity. Defined.

Example cacheKey_collision : cacheKey "1-2" "X" = cacheKey "1" "2-X".
Proof. reflexivity. Qed.

Lemma catalog_keys_NoDup : NoDup (key_of <$> SUPPORTED_TOKENS).
Proof.
  apply (bool_decide_unpack (NoDup (key_of <$> SUPPORTED_TOKENS))).
  vm_compute. reflexivity.
Qed.

Lemma catalog_hyphen_free token :
  token ∈ SUPPORTED_TOKENS ->
  hyphen_free (Supported.chainId token) = true
  /\ hyphen_free (Supported.symbol token) = true.
Proof.
  intros H. unfold SUPPORTED_TOKENS in H.
  repeat (apply elem_of_cons in H as [-> | H]; [done|]).
  by apply elem_of_nil in H.
Qed.



Lemma getTokenIcon_catalog token :
  token ∈ SUPPORTED_TOKENS ->
  getTokenIcon (Supported.symbol token) = Supported.icon token.
Proof.
  intros H. unfold SUPPORTED_TOKENS in H.
  repeat (apply elem_of_cons in H as [-> | H]; [reflexivity|]).
  by apply elem_of_nil in H.
Qed.


(** *** getTokenInfo, call by call *)

Lemma str_or_else_nonempty o d : d <> "" -> JS.str_or_else o d <> "".
Proof.
  intros Hd. unfold JS.str_or_else, JS.opt_truthy.
  destruct o as [[|c r]|]; simpl; done.
Qed.

Lemma unitPrice_or_0_not_NaN p : JS.isNaN (unitPrice_or_0 p) = false.
Proof.
  unfold unitPrice_or_0. destruct (p ≫= PriceInfo.unitPrice) as [x|]; [|done].
  unfold JS.or_else. by destruct x.
Qed.

Section Calls.
Variable w : World.

(** Runs [getTokenInfo] to its end, one case per way it can go. *)
Ltac run_getTokenInfo c sy s :=
  unfold await, getTokenInfo, mbind, async_bind, lift, apiCache_get, get;
  destruct (apiCache s !! cacheKey c sy) as [entry|] eqn:Hentry;
  [destruct (TTL <? dateNow w (clockReads s) - timestamp entry) eqn:Hstale|];
  cbn;
  try (destruct (getAssetErc20ByChainAndSymbol w (length (requests s)) c sy)
         as [[info|]|e] eqn:Hmeta; cbn;
       [destruct (JS.opt_truthy (Erc20Asset.address info)) eqn:Haddr; cbn;
        [match goal with
         | |- context [getAssetPriceInfo w ?t ?c' ?a] =>
             destruct (getAssetPriceInfo w t c' a) as [priceInfo|e] eqn:Hprice;
             cbn
         end|]
       | | ]).

(** X13. Whatever the API answers, the token [getTokenInfo] resolves to
    is the one the cache holds under the call's key when it ends, and
    [null] means that the cache holds none; the entries under all other
    keys are as before. *)
Theorem getTokenInfo_returns_cached (chainId symbol : string) (s : State) :
  let outcome := await w (getTokenInfo w chainId symbol) s in
  cached_result (cacheKey chainId symbol) (fst outcome) (snd outcome)
  /\ only (cacheKey chainId symbol) s (snd outcome).
Proof.
  unfold cached_result, only.
  run_getTokenInfo chainId symbol s;
    (split; [|intros k Hk]);
    rewrite ?lookup_insert_eq, ?lookup_delete_eq, ?Hentry;
    rewrite ?lookup_insert_ne, ?lookup_delete_ne by done; done.
Qed.

(** X14. With an entry under its key that is not older than the TTL,
    [getTokenInfo] resolves to the entry's token, counts one cache hit and
    reads the clock once; it issues no request, writes nothing to the
    console and leaves the cache as it is. *)
Theorem getTokenInfo_cache_hit (chainId symbol : string) (s : State)
    (entry : CacheEntry Token.t) :
  apiCache s !! cacheKey chainId symbol = Some entry ->
  dateNow w (clockReads s) - timestamp entry <= TTL ->
  await w (getTokenInfo w chainId symbol) s
  = (Fulfilled (Some (data entry)),
     {| apiCache := apiCache s;
        perfMonitor := PerformanceMonitor.recordCacheHit (perfMonitor s);
        clockReads := S (clockReads s);
        requests := requests s;
        console := console s |}).
Proof.
  intros Hk Hfresh.
  unfold await, getTokenInfo, mbind, async_bind, lift, apiCache_get, get.
  rewrite Hk.
  destruct (TTL <? dateNow w (clockReads s) - timestamp entry) eqn:X;
    [apply Z.ltb_lt in X; lia|].
  reflexivity.
Qed.

(** X15. A call of [getTokenInfo] reads the cache exactly once.  Served
    from the cache it issues no request; otherwise it issues the metadata
    request for its chain and symbol, followed by one price request, for
    the address the metadata gives, exactly when the metadata resolves to
    a token with a non-empty address. *)
Theorem getTokenInfo_requests (chainId symbol : string) (s : State) :
  let s' := snd (await w (getTokenInfo w chainId symbol) s) in
  accesses s' = (accesses s + 1)%N
  /\ exists l,
       requests s' = requests s ++ l
       /\ match fst (apiCache_get w (cacheKey chainId symbol) s) with
          | Some _ => l = []
          | None =>
              match getAssetErc20ByChainAndSymbol w (length (requests s))
                      chainId symbol with
              | Fulfilled (Some info) =>
                  if JS.opt_truthy (Erc20Asset.address info)
                  then l = [ReqErc20 chainId symbol;
                            ReqPrice chainId
                              (default "" (Erc20Asset.address info))]
                  else l = [ReqErc20 chainId symbol]
              | _ => l = [ReqErc20 chainId symbol]
              end
          end.
Proof.
  unfold accesses.
  run_getTokenInfo chainId symbol s; (split; [lia|]);
    try (exists []; by rewrite app_nil_r);
    try (eexists; split; [reflexivity|]; rewrite ?Hmeta, ?Haddr; reflexivity);
    try (eexists; split; [symmetry; apply app_assoc|];
         rewrite ?Hmeta, ?Haddr; reflexivity).
Qed.

(** X16. A token that [getTokenInfo] fetched (rather than found in the
    cache) has the requested chain id, the icon of the requested symbol
    and the address the metadata gives; its price is not [NaN]; and when
    the requested symbol is not empty, neither is its symbol or name. *)
Theorem getTokenInfo_fetched_token (chainId symbol : string) (s : State)
    (token : Token.t) :
  fst (apiCache_get w (cacheKey chainId symbol) s) = None ->
  fst (await w (getTokenInfo w chainId symbol) s) = Fulfilled (Some token) ->
  Token.chainId token = chainId
  /\ Token.icon token = getTokenIcon symbol
  /\ JS.isNaN (Token.price token) = false
  /\ (symbol <> "" -> Token.symbol token <> "" /\ Token.name token <> "")
  /\ exists info,
       getAssetErc20ByChainAndSymbol w (length (requests s)) chainId symbol
         = Fulfilled (Some info)
       /\ Token.address token = Erc20Asset.address info.
Proof.
  run_getTokenInfo chainId symbol s; intros Hmiss; try discriminate;
    intros [= <-]; cbn;
    (split; [done|]); (split; [done|]);
    (split; [done || apply unitPrice_or_0_not_NaN|]);
    (split; [intros Hs; split; by apply str_or_else_nonempty|]);
    by exists info.
Qed.

End Calls.

Lemma getTokenInfo_cache_hit_witness :
  await world_down (getTokenInfo world_down "1" "USDC") state_stale
  = (Fulfilled (Some {| Token.symbol := "USDC"; Token.name := "USD Coin";
                        Token.price := JS.of_Z 1; Token.icon := "💵";
                        Token.chainId := "1"; Token.address := None |}),
     {| apiCache := apiCache state_stale;
        perfMonitor := PerformanceMonitor.recordCacheHit (perfMonitor state_stale);
        clockReads := 1; requests := []; console := [] |}).
Proof.
  apply (getTokenInfo_cache_hit world_down "1" "USDC" state_stale
           {| data := {| Token.symbol := "USDC"; Token.name := "USD Coin";
                         Token.price := JS.of_Z 1; Token.icon := "💵";
                         Token.chainId := "1"; Token.address := None |};
              timestamp := 0 |}).
  - reflexivity.
  - vm_compute. discriminate.
Defined.

Lemma getTokenInfo_fetched_token_witness :
  exists token,
    fst (await world_up (getTokenInfo world_up "1" "USDC") initial)
    = Fulfilled (Some token)
    /\ Token.chainId token = "1"
    /\ Token.icon token = getTokenIcon "USDC"
    /\ JS.isNaN (Token.price token) = false.
Proof.
  eexists. split; [vm_compute; reflexivity|].
  destruct (getTokenInfo_fetched_token world_up "1" "USDC" initial _
              eq_refl eq_refl) as (H1 & H2 & H3 & _).
  split; [exact H1|]. split; [exact H2|exact H3].
Defined.

(** *** Results and cache agree *)

Lemma only_refl key s : only key s s.
Proof. by intros k _. Qed.

Lemma only_trans key s1 s2 s3 : only key s1 s2 -> only key s2 s3 -> only key s1 s3.
Proof. intros H1 H2 k Hk. rewrite (H2 k Hk). by apply H1. Qed.

(** What [promise_owns] says of a state depends on the entry under the key
    alone. *)
Lemma promise_owns_stable key p s s' :
  apiCache s' !! key = apiCache s !! key ->
  promise_owns key p s -> promise_owns key p s'.
Proof.
  intros Heq. destruct p as [r|t c sy k|t c a k]; simpl.
  - unfold cached_result. by rewrite Heq.
  - rewrite Heq. done.
  - rewrite Heq. done.
Qed.

Lemma cached_result_stable key r s s' :
  apiCache s' !! key = apiCache s !! key ->
  cached_result key r s -> cached_result key r s'.
Proof. unfold cached_result. by intros ->. Qed.

Lemma suspend_owns key s0 st :
  owns key s0 st ->
  only key s0 (snd (suspend st))
  /\ promise_owns key (fst (suspend st)) (snd (suspend st)).
Proof. destruct st; simpl; tauto. Qed.

Section Coherence.
Variable w : World.

Ltac solve_only :=
  let k := fresh "k" in let Hk := fresh "Hk" in
  intros k Hk; simpl;
  rewrite ?lookup_insert_ne, ?lookup_delete_ne by done; done.

Ltac solve_cached H :=
  unfold cached_result; simpl;
  rewrite ?lookup_insert_eq, ?lookup_delete_eq, ?H; done.

Lemma getTokenInfo_owns c sy s : owns (cacheKey c sy) s (getTokenInfo w c sy s).
Proof.
  unfold getTokenInfo, mbind, async_bind, lift, apiCache_get, get.
  destruct (apiCache s !! cacheKey c sy) as [entry|] eqn:Hentry;
    [destruct (TTL <? dateNow w (clockReads s) - timestamp entry) eqn:Hstale|];
    cbn.
  2: { split; [solve_only|solve_cached Hentry]. }
  all: (split; [solve_only|]);
       (split; [simpl; by rewrite ?lookup_delete_eq|]);
       intros o s' Hnone; destruct o as [[info|]|e]; cbn;
       try (split; [solve_only|solve_cached Hnone]);
       destruct (JS.opt_truthy (Erc20Asset.address info)); cbn;
       try (split; [solve_only|solve_cached Hnone]);
       (split; [solve_only|]); (split; [exact Hnone|]);
       intros o2 s2 Hnone2; destruct o2 as [priceInfo|e2]; cbn;
       (split; [solve_only|solve_cached Hnone2]).
Qed.

Lemma resume_owns key p s :
  promise_owns key p s ->
  only key s (snd (resume w p s))
  /\ promise_owns key (fst (resume w p s)) (snd (resume w p s)).
Proof.
  destruct p as [r|t c sy k|t c a k]; simpl.
  - intros H. split; [apply only_refl|exact H].
  - intros [Hnone Hk]. apply suspend_owns, Hk, Hnone.
  - intros [Hnone Hk]. apply suspend_owns, Hk, Hnone.
Qed.

Lemma settle_owns key s0 st :
  owns key s0 st ->
  only key s0 (snd (settle w st))
  /\ cached_result key (fst (settle w st)) (snd (settle w st)).
Proof.
  revert s0. induction st as [r s|s t c sy k IH|s t c a k IH]; intros s0; simpl.
  - done.
  - intros (H & Hnone & Hk).
    destruct (IH _ _ _ (Hk (getAssetErc20ByChainAndSymbol w t c sy) s Hnone)).
    split; [|done]. eapply only_trans; eauto.
  - intros (H & Hnone & Hk).
    destruct (IH _ _ _ (Hk (getAssetPriceInfo w t c a) s Hnone)).
    split; [|done]. eapply only_trans; eauto.
Qed.

Lemma finish_owns key p s :
  promise_owns key p s ->
  only key s (snd (finish w p s))
  /\ cached_result key (fst (finish w p s)) (snd (finish w p s)).
Proof.
  destruct p as [r|t c sy k|t c a k]; simpl.
  - intros H. split; [apply only_refl|exact H].
  - intros [Hnone Hk]. apply settle_owns, Hk, Hnone.
  - intros [Hnone Hk]. apply settle_owns, Hk, Hnone.
Qed.

(** Promises that own different keys do not disturb each other. *)
Lemma resume_at_owns i (keys : list string) ps s :
  NoDup keys ->
  Forall2 (fun key p => promise_owns key p s) keys ps ->
  Forall2 (fun key p => promise_owns key p (snd (resume_at w i ps s)))
    keys (fst (resume_at w i ps s))
  /\ forall k, k ∉ keys ->
       apiCache (snd (resume_at w i ps s)) !! k = apiCache s !! k.
Proof.
  intros Hnd Hall. unfold resume_at.
  destruct (ps !! i) as [p|] eqn:E; [|done].
  destruct (Forall2_lookup_r _ _ _ _ _ Hall E) as (key & Hkey & Hp).
  destruct (resume_owns key p s Hp) as [Honly Hp'].
  destruct (resume w p s) as [p' s']. simpl in *.
  apply Forall2_same_length_lookup in Hall as [Hlen Hall].
  split.
  - apply Forall2_same_length_lookup. split; [by rewrite length_insert|].
    intros j key' q Hj Hq.
    destruct (decide (i = j)) as [<- | Hne].
    + rewrite list_lookup_insert_eq in Hq
        by (apply lookup_lt_Some in E; done).
      injection Hq as <-. rewrite Hkey in Hj. by injection Hj as <-.
    + rewrite list_lookup_insert_ne in Hq by done.
      apply (promise_owns_stable key' q s); [|by eapply Hall].
      apply Honly. intros ->. apply Hne. by eapply NoDup_lookup.
  - intros k Hk. apply Honly. intros ->. apply Hk.
    by eapply list_elem_of_lookup_2.
Qed.

Lemma run_schedule_owns sched (keys : list string) ps s :
  NoDup keys ->
  Forall2 (fun key p => promise_owns key p s) keys ps ->
  Forall2 (fun key p => promise_owns key p (snd (run_schedule w sched ps s)))
    keys (fst (run_schedule w sched ps s))
  /\ forall k, k ∉ keys ->
       apiCache (snd (run_schedule w sched ps s)) !! k = apiCache s !! k.
Proof.
  intros Hnd. revert ps s.
  induction sched as [|i sched IH]; intros ps s Hall; simpl.
  - done.
  - destruct (resume_at_owns i keys ps s Hnd Hall) as [Hall' Hout].
    destruct (resume_at w i ps s) as [ps' s']. simpl in *.
    destruct (IH ps' s' Hall') as [Hall'' Hout'].
    split; [done|]. intros k Hk. rewrite Hout' by done. by apply Hout.
Qed.

Lemma owns_others_stable (key : string) (keys : list string) ps s s' :
  key ∉ keys -> only key s s' ->
  Forall2 (fun key p => promise_owns key p s) keys ps ->
  Forall2 (fun key p => promise_owns key p s') keys ps.
Proof.
  intros Hnotin Honly Hall.
  apply Forall2_same_length_lookup in Hall as [Hlen Hall].
  apply Forall2_same_length_lookup. split; [done|].
  intros j key' q Hj Hq.
  apply (promise_owns_stable key' q s); [|by eapply Hall].
  apply Honly. intros ->. apply Hnotin. by eapply list_elem_of_lookup_2.
Qed.

Lemma finish_all_owns (keys : list string) ps s :
  NoDup keys ->
  Forall2 (fun key p => promise_owns key p s) keys ps ->
  Forall2 (fun key r => cached_result key r (snd (finish_all w ps s)))
    keys (fst (finish_all w ps s))
  /\ forall k, k ∉ keys ->
       apiCache (snd (finish_all w ps s)) !! k = apiCache s !! k.
Proof.
  intros Hnd Hall. revert s Hall Hnd.
  revert keys. induction ps as [|p ps IH]; intros keys s Hall Hnd.
  - inversion Hall; subst. simpl. split; [constructor|done].
  - inversion Hall as [|key p0 keys' ps0 Hp Hrest]; subst. simpl.
    apply NoDup_cons in Hnd as [Hnotin Hnd'].
    destruct (finish_owns key p s Hp) as [Honly Hres].
    destruct (finish w p s) as [r s1]. simpl in *.
    pose proof (owns_others_stable key keys' ps s s1 Hnotin Honly Hrest)
      as Hrest1.
    destruct (IH keys' s1 Hrest1 Hnd') as [Hall' Hout].
    destruct (finish_all w ps s1) as [rs s2]. simpl in *.
    split.
    + constructor; [|done].
      apply (cached_result_stable key r s1); [|done]. by apply Hout.
    + intros k Hk. apply not_elem_of_cons in Hk as [Hk1 Hk2].
      rewrite Hout by done. by apply Honly.
Qed.

Lemma start_all_owns tokens s :
  NoDup (key_of <$> tokens) ->
  Forall2 (fun key p => promise_owns key p (snd (start_all w tokens s)))
    (key_of <$> tokens) (fst (start_all w tokens s))
  /\ forall k, k ∉ key_of <$> tokens ->
       apiCache (snd (start_all w tokens s)) !! k = apiCache s !! k.
Proof.
  revert s. induction tokens as [|token tokens IH]; intros s Hnd; simpl.
  - split; [constructor|done].
  - rewrite fmap_cons in Hnd. apply NoDup_cons in Hnd as [Hnotin Hnd'].
    pose proof (getTokenInfo_owns (Supported.chainId token)
                  (Supported.symbol token) s) as Ho.
    apply suspend_owns in Ho as [Honly Hp]. fold (key_of token) in Honly, Hp.
    destruct (suspend _) as [p s1]. simpl in *.
    destruct (IH s1 Hnd') as [Hall Hout].
    destruct (start_all w tokens s1) as [ps s2]. simpl in *.
    split.
    + constructor; [|done].
      apply (promise_owns_stable (key_of token) p s1); [|done]. by apply Hout.
    + intros k Hk. apply not_elem_of_cons in Hk as [Hk1 Hk2].
      rewrite Hout by done. by apply Honly.
Qed.

Lemma collect_cached (keys : list string) rs s :
  Forall2 (fun key r => cached_result key r s) keys rs ->
  collect rs = Fulfilled ((fun key => data <$> apiCache s !! key) <$> keys).
Proof.
  induction 1 as [|key r keys rs Hr _ IH]; [done|].
  unfold cached_result in Hr. subst r. simpl. by rewrite IH.
Qed.

(** The results of the round are what the cache holds afterwards. *)
Lemma fetch_round_cached sched s :
  let s' := snd (fetch_round w sched s) in
  fst (fetch_round w sched s)
  = Fulfilled ((fun token => data <$> apiCache s' !! key_of token)
               <$> SUPPORTED_TOKENS)
  /\ forall k, k ∉ key_of <$> SUPPORTED_TOKENS ->
       apiCache s' !! k = apiCache s !! k.
Proof.
  unfold fetch_round, promise_all.
  pose proof catalog_keys_NoDup as Hnd.
  destruct (start_all_owns SUPPORTED_TOKENS s Hnd) as [H1 O1].
  destruct (start_all w SUPPORTED_TOKENS s) as [ps s1]. simpl in H1, O1.
  destruct (run_schedule_owns sched _ ps s1 Hnd H1) as [H2 O2].
  destruct (run_schedule w sched ps s1) as [ps' s2]. simpl in H2, O2.
  destruct (finish_all_owns _ ps' s2 Hnd H2) as [H3 O3].
  destruct (finish_all w ps' s2) as [rs s3]. simpl in H3, O3 |- *.
  split.
  - rewrite (collect_cached _ _ _ H3). reflexivity.
  - intros k Hk. rewrite O3, O2 by done. by apply O1.
Qed.

Lemma apiCache_get_only key s : only key s (snd (apiCache_get w key s)).
Proof.
  unfold apiCache_get, get.
  destruct (apiCache s !! key) as [entry|]; [|solve_only].
  destruct (TTL <? _); solve_only.
Qed.

Lemma probe_outside tokens acc s k :
  k ∉ key_of <$> tokens ->
  apiCache (snd (probe w tokens acc s)) !! k = apiCache s !! k.
Proof.
  revert acc s. induction tokens as [|token tokens IH]; intros acc s Hk; [done|].
  rewrite fmap_cons in Hk. apply not_elem_of_cons in Hk as [Hk1 Hk2].
  simpl. pose proof (apiCache_get_only (key_of token) s k Hk1) as Hget.
  unfold key_of in Hget.
  destruct (apiCache_get w _ s) as [[c|] s1]; simpl in *; [|done].
  by rewrite IH.
Qed.

Lemma cached_all_view tokens cache reads toks :
  cached_all w tokens cache reads = Some toks ->
  toks = (fun token =>
            match cache !! key_of token with
            | Some entry => data entry
            | None => fallback token
            end) <$> tokens.
Proof.
  revert reads toks.
  induction tokens as [|token tokens IH]; intros reads toks; simpl.
  - by intros [= <-].
  - unfold key_of at 1.
    destruct (cache !! _) as [entry|]; [|discriminate].
    destruct (TTL <? _); [discriminate|].
    destruct (cached_all w tokens cache (S reads)) as [rest|] eqn:C;
      [|discriminate].
    intros [= <-]. f_equal. eauto.
Qed.

Lemma getAllTokensInfo_view sched s :
  fst (getAllTokensInfo w sched s)
  = Fulfilled (catalog_view (snd (getAllTokensInfo w sched s)))
  /\ forall k, k ∉ key_of <$> SUPPORTED_TOKENS ->
       apiCache (snd (getAllTokensInfo w sched s)) !! k = apiCache s !! k.
Proof.
  destruct (cached_all w SUPPORTED_TOKENS (apiCache s) (clockReads s))
    as [toks|] eqn:C.
  - destruct (getAllTokensInfo_cached w sched s toks C) as (s' & -> & Hc & _).
    simpl. split; [|by rewrite Hc].
    unfold catalog_view. rewrite Hc. f_equal. by eapply cached_all_view.
  - destruct (probe_uncached w SUPPORTED_TOKENS [] s C) as [Hb _].
    pose proof (fun k => probe_outside SUPPORTED_TOKENS [] s k) as Hp.
    unfold getAllTokensInfo.
    destruct (probe w SUPPORTED_TOKENS [] s) as [[partial b] s1].
    simpl in Hb, Hp. subst b.
    destruct (fetch_round_cached sched s1) as [Hr Ho].
    destruct (fetch_round w sched s1) as [r s2]. simpl in Hr, Ho. subst r.
    simpl. split.
    + f_equal. unfold catalog_view, with_fallbacks, key_of. simpl.
      repeat match goal with
             | |- context [apiCache s2 !! ?k] => destruct (apiCache s2 !! k)
             end; reflexivity.
    + intros k Hk. rewrite Ho by done. by apply Hp.
Qed.

(** X17. In whatever order the responses arrive and whatever they are,
    [getAllTokensInfo] resolves to the catalog as the cache shows it when
    the call ends: for each catalog entry the token cached under its key,
    and the fallback record where none is cached.  Entries under other
    keys than the catalog's are as before. *)
Theorem getAllTokensInfo_catalog_view (sched : list nat) (s : State) :
  let outcome := getAllTokensInfo w sched s in
  fst outcome = Fulfilled (catalog_view (snd outcome))
  /\ forall k, k ∉ key_of <$> SUPPORTED_TOKENS ->
       apiCache (snd outcome) !! k = apiCache s !! k.
Proof. exact (getAllTokensInfo_view sched s). Qed.

(** X18. A call of [getAllTokensInfo] that finds the whole catalog
    cached, as a previous call left it, resolves to the tokens the
    previous call resolved to and issues no request. *)
Theorem getAllTokensInfo_twice (sched sched' : list nat) (s : State)
    (toks : list Token.t) :
  let s1 := snd (getAllTokensInfo w sched s) in
  cached_all w SUPPORTED_TOKENS (apiCache s1) (clockReads s1) = Some toks ->
  fst (getAllTokensInfo w sched s) = Fulfilled toks
  /\ fst (getAllTokensInfo w sched' s1) = Fulfilled toks
  /\ requests (snd (getAllTokensInfo w sched' s1)) = requests s1.
Proof.
  intros s1 C.
  destruct (getAllTokensInfo_view sched s) as [Hv _]. fold s1 in Hv.
  destruct (getAllTokensInfo_cached w sched' s1 toks C) as (s2 & -> & _ & Hr).
  split; [|done].
  rewrite Hv. f_equal. unfold catalog_view. symmetry. by eapply cached_all_view.
Qed.

End Coherence.

Lemma getAllTokensInfo_twice_witness :
  exists toks,
    cached_all world_up SUPPORTED_TOKENS (apiCache state_warm)
      (clockReads state_warm) = Some toks
    /\ fst (getAllTokensInfo world_up [] initial) = Fulfilled toks
    /\ fst (getAllTokensInfo world_up [1; 3]%nat state_warm) = Fulfilled toks.
Proof.
  destruct (cached_all world_up SUPPORTED_TOKENS (apiCache state_warm)
              (clockReads state_warm)) as [toks|] eqn:C;
    [|vm_compute in C; discriminate].
  exists toks. split; [reflexivity|].
  destruct (getAllTokensInfo_twice world_up [] [1; 3]%nat initial toks C)
    as (H1 & H2 & _).
  split; [exact H1|exact H2].
Defined.

(** *** The order in which the responses arrive *)

Lemma suspend_settles {A} w (r : Settled A) st :
  settles_to w r st -> promise_settles_to w r (fst (suspend st)).
Proof. by destruct st. Qed.

Section Order.
Variable w : World.
Hypothesis steady : steady_prices w.

Lemma getTokenInfo_settles c sy s :
  exists r, promise_settles_to w r (fst (suspend (getTokenInfo w c sy s))).
Proof.
  unfold getTokenInfo, mbind, async_bind, lift.
  destruct (apiCache_get w (cacheKey c sy) s) as [[token|] s1]; cbn.
  - by eexists.
  - destruct (getAssetErc20ByChainAndSymbol w (length (requests s1)) c sy)
      as [[info|]|e]; cbn.
    + destruct (JS.opt_truthy (Erc20Asset.address info)) eqn:Haddr.
      * destruct (getAssetPriceInfo w 0 c (default "" (Erc20Asset.address info)))
          as [priceInfo|e] eqn:Hprice;
          eexists; intros s'; cbn; intros s'';
          rewrite (steady _ 0%nat), Hprice; cbn; reflexivity.
      * eexists. intros s'. cbn. reflexivity.
    + eexists. intros s'. cbn. reflexivity.
    + eexists. intros s'. cbn. reflexivity.
Qed.

Lemma resume_settles {A} (r : Settled A) p s :
  promise_settles_to w r p -> promise_settles_to w r (fst (resume w p s)).
Proof.
  destruct p as [r'|t c sy k|t c a k]; simpl; intros H.
  - exact H.
  - apply suspend_settles, H.
  - apply suspend_settles, H.
Qed.

Lemma settle_settles {A} (r : Settled A) st :
  settles_to w r st -> fst (settle w st) = r.
Proof.
  induction st as [r' s|s t c sy k IH|s t c a k IH]; simpl; intros H.
  - exact H.
  - apply IH, H.
  - apply IH, H.
Qed.

Lemma finish_settles {A} (r : Settled A) p s :
  promise_settles_to w r p -> fst (finish w p s) = r.
Proof.
  destruct p as [r'|t c sy k|t c a k]; simpl; intros H.
  - exact H.
  - apply settle_settles, H.
  - apply settle_settles, H.
Qed.

Lemma run_schedule_settles {A} sched (rs : list (Settled A)) ps s :
  Forall2 (promise_settles_to w) rs ps ->
  Forall2 (promise_settles_to w) rs (fst (run_schedule w sched ps s)).
Proof.
  revert ps s. induction sched as [|i sched IH]; intros ps s Hall; simpl; [done|].
  unfold resume_at. destruct (ps !! i) as [p|] eqn:E; [|by apply IH].
  destruct (Forall2_lookup_r _ _ _ _ _ Hall E) as (r & Hr & Hp).
  pose proof (resume_settles r p s Hp) as Hp'.
  destruct (resume w p s) as [p' s']. simpl in Hp'. apply IH.
  rewrite <- (list_insert_id rs i r Hr). by apply Forall2_insert.
Qed.

Lemma finish_all_settles {A} (rs : list (Settled A)) ps s :
  Forall2 (promise_settles_to w) rs ps -> fst (finish_all w ps s) = rs.
Proof.
  intros Hall. revert s. induction Hall as [|r p rs ps Hp _ IH]; intros s; [done|].
  simpl. pose proof (finish_settles r p s Hp) as Hr.
  destruct (finish w p s) as [r' s1]. simpl in Hr. subst r'.
  specialize (IH s1). destruct (finish_all w ps s1) as [rs' s2].
  simpl in *. by subst.
Qed.

Lemma start_all_settles tokens s :
  exists rs, Forall2 (promise_settles_to w) rs (fst (start_all w tokens s)).
Proof.
  revert s. induction tokens as [|token tokens IH]; intros s; simpl.
  - exists []. constructor.
  - destruct (getTokenInfo_settles (Supported.chainId token)
                (Supported.symbol token) s) as [r Hr].
    destruct (suspend _) as [p s1]. simpl in Hr.
    destruct (IH s1) as [rs Hrs].
    destruct (start_all w tokens s1) as [ps s2]. simpl in *.
    exists (r :: rs). by constructor.
Qed.

(** X19. When the price API answers a request the same way whenever it
    is asked, the tokens [getAllTokensInfo] resolves to do not depend on
    the order in which the responses arrive. *)
Theorem getAllTokensInfo_any_order (sched sched' : list nat) (s : State) :
  fst (getAllTokensInfo w sched s) = fst (getAllTokensInfo w sched' s).
Proof.
  unfold getAllTokensInfo.
  destruct (probe w SUPPORTED_TOKENS [] s) as [[cachedTokens b] s1].
  destruct b; [reflexivity|].
  assert (fst (fetch_round w sched s1) = fst (fetch_round w sched' s1)) as H.
  { unfold fetch_round, promise_all.
    destruct (start_all_settles SUPPORTED_TOKENS s1) as [rs Hrs].
    destruct (start_all w SUPPORTED_TOKENS s1) as [ps s2]. simpl in Hrs.
    pose proof (run_schedule_settles sched rs ps s2 Hrs) as H1.
    pose proof (run_schedule_settles sched' rs ps s2 Hrs) as H2.
    destruct (run_schedule w sched ps s2) as [ps1 t1].
    destruct (run_schedule w sched' ps s2) as [ps2 t2]. simpl in H1, H2.
    pose proof (finish_all_settles rs ps1 t1 H1) as F1.
    pose proof (finish_all_settles rs ps2 t2 H2) as F2.
    destruct (finish_all w ps1 t1) as [rs1 u1].
    destruct (finish_all w ps2 t2) as [rs2 u2]. simpl in *. congruence. }
  destruct (fetch_round w sched s1) as [[r|e] u1];
    destruct (fetch_round w sched' s1) as [[r'|e'] u2]; simpl in *; congruence.
Qed.

End Order.

Lemma getAllTokensInfo_any_order_witness :
  fst (getAllTokensInfo world_partial [2; 0; 2; 5]%nat initial)
  = fst (getAllTokensInfo world_partial [] initial).
Proof.
  apply getAllTokensInfo_any_order. intros n n' c a. reflexivity.
Defined.

(** *** Chains and icons *)

Lemma consistent_same s s' : apiCache s' = apiCache s -> keeps_consistent s s'.
Proof. intros Heq H token entry. rewrite Heq. apply H. Qed.

Lemma consistent_delete s s' key :
  apiCache s' = delete key (apiCache s) -> keeps_consistent s s'.
Proof.
  intros Heq H token entry Hin. rewrite Heq.
  intros Hl. apply lookup_delete_Some in Hl as [_ Hl]. by eapply H.
Qed.

Lemma consistent_insert s s' c sy tok now :
  apiCache s' = <[cacheKey c sy := {| data := tok; timestamp := now |}]> (apiCache s) ->
  Token.chainId tok = c -> Token.icon tok = getTokenIcon sy ->
  keeps_consistent s s'.
Proof.
  intros Heq Hc Hi H token entry Hin. rewrite Heq.
  destruct (decide (cacheKey c sy = key_of token)) as [Hk | Hne].
  - rewrite Hk, lookup_insert_eq. intros [= <-]. simpl.
    destruct (catalog_hyphen_free token Hin) as [H1 H2].
    assert (c = Supported.chainId token /\ sy = Supported.symbol token)
      as [-> ->].
    { apply only_hyphen; [exact H1|exact H2|].
      unfold key_of, cacheKey in Hk. by injection Hk. }
    split; [exact Hc|]. rewrite Hi. by apply getTokenIcon_catalog.
  - rewrite lookup_insert_ne by done. by apply H.
Qed.

Lemma keeps_consistent_refl s : keeps_consistent s s.
Proof. by intros H. Qed.

Lemma keeps_consistent_trans s1 s2 s3 :
  keeps_consistent s1 s2 -> keeps_consistent s2 s3 -> keeps_consistent s1 s3.
Proof. unfold keeps_consistent. tauto. Qed.

Section Consistent.
Variable w : World.

Lemma getTokenInfo_keeps_consistent c sy s :
  respects keeps_consistent fulfilled s (getTokenInfo w c sy s).
Proof.
  unfold getTokenInfo, mbind, async_bind, lift, apiCache_get, get.
  destruct (apiCache s !! cacheKey c sy) as [entry|] eqn:Hentry;
    [destruct (TTL <? dateNow w (clockReads s) - timestamp entry) eqn:Hstale|];
    cbn.
  2: { split; [by apply consistent_same|done]. }
  all: (split; [first [by apply consistent_same | by eapply consistent_delete]|]);
       intros o s'; destruct o as [[info|]|e]; cbn;
       try (split; [by apply consistent_same|done]);
       destruct (JS.opt_truthy (Erc20Asset.address info)); cbn;
       try (split; [by eapply consistent_insert|done]);
       (split; [by apply consistent_same|]);
       intros o2 s2; destruct o2 as [priceInfo|e2]; cbn;
       (split; [by eapply consistent_insert|done]).
Qed.

Lemma start_all_keeps_consistent tokens s :
  Forall (promise_respects keeps_consistent fulfilled)
    (fst (start_all w tokens s))
  /\ keeps_consistent s (snd (start_all w tokens s)).
Proof.
  revert s. induction tokens as [|token tokens IH]; intros s; simpl.
  - split; [constructor|apply keeps_consistent_refl].
  - destruct (suspend_respects keeps_consistent fulfilled s _
                (getTokenInfo_keeps_consistent (Supported.chainId token)
                   (Supported.symbol token) s)) as [HR Hp].
    destruct (suspend _) as [p s1]. simpl in *.
    destruct (IH s1) as [Hall HR'].
    destruct (start_all w tokens s1) as [ps s2]. simpl in *.
    split; [by constructor|by eapply keeps_consistent_trans].
Qed.

Lemma probe_keeps_consistent tokens acc s :
  keeps_consistent s (snd (probe w tokens acc s)).
Proof.
  revert acc s. induction tokens as [|token tokens IH]; intros acc s; simpl.
  - apply keeps_consistent_refl.
  - assert (keeps_consistent s (snd (apiCache_get w (key_of token) s))) as Hget.
    { unfold apiCache_get, get.
      destruct (apiCache s !! key_of token) as [entry|];
        [|by apply consistent_same].
      destruct (TTL <? _); [by eapply consistent_delete|by apply consistent_same]. }
    unfold key_of in Hget.
    destruct (apiCache_get w _ s) as [[c|] s1]; simpl in *; [|done].
    eapply keeps_consistent_trans; [exact Hget|apply IH].
Qed.

Lemma getAllTokensInfo_keeps_consistent sched s :
  keeps_consistent s (snd (getAllTokensInfo w sched s)).
Proof.
  unfold getAllTokensInfo.
  pose proof (probe_keeps_consistent SUPPORTED_TOKENS [] s) as Hp.
  destruct (probe w SUPPORTED_TOKENS [] s) as [[cachedTokens b] s1].
  simpl in Hp. destruct b; [done|].
  unfold fetch_round.
  destruct (start_all_keeps_consistent SUPPORTED_TOKENS s1) as [Hall Hs].
  destruct (start_all w SUPPORTED_TOKENS s1) as [ps s2]. simpl in *.
  destruct (promise_all_fulfilled w keeps_consistent sched ps s2
              keeps_consistent_refl keeps_consistent_trans Hall)
    as (l & s3 & -> & _ & H3).
  simpl. eauto using keeps_consistent_trans.
Qed.

(** X20. If every cached catalog token carries the chain id and the icon
    of its catalog entry (as in the empty cache), then so it is after
    [getAllTokensInfo], whatever the API answers, and the four tokens the
    call resolves to carry the catalog's chain ids and icons, in the
    catalog's order. *)
Theorem getAllTokensInfo_consistent (sched : list nat) (s : State) :
  catalog_consistent s ->
  let outcome := getAllTokensInfo w sched s in
  catalog_consistent (snd outcome)
  /\ exists toks,
       fst outcome = Fulfilled toks
       /\ Token.chainId <$> toks = Supported.chainId <$> SUPPORTED_TOKENS
       /\ Token.icon <$> toks = Supported.icon <$> SUPPORTED_TOKENS.
Proof.
  intros Hs outcome.
  pose proof (getAllTokensInfo_keeps_consistent sched s Hs) as Hs'.
  fold outcome in Hs'. split; [exact Hs'|].
  destruct (getAllTokensInfo_view w sched s) as [Hv _].
  fold outcome in Hv. exists (catalog_view (snd outcome)). split; [exact Hv|].
  unfold catalog_view. rewrite <- !list_fmap_compose.
  split; apply list_fmap_ext; intros i token Hi; simpl;
    (destruct (apiCache (snd outcome) !! key_of token) as [entry|] eqn:E;
       [|done]);
    eapply Hs'; try exact E; by eapply list_elem_of_lookup_2.
Qed.

End Consistent.

Lemma getAllTokensInfo_consistent_witness :
  exists toks,
    fst (getAllTokensInfo world_partial [3; 1]%nat initial) = Fulfilled toks
    /\ Token.chainId <$> toks = ["1"; "137"; "8453"; "1"]
    /\ Token.icon <$> toks = ["💵"; "💵"; "Ξ"; "₿"].
Proof.
  assert (catalog_consistent initial) as H0.
  { intros token entry _ H. simpl in H. by rewrite lookup_empty in H. }
  destruct (getAllTokensInfo_consistent world_partial [3; 1]%nat initial H0)
    as (_ & toks & H1 & H2 & H3).
  exists toks. split; [exact H1|]. split; [exact H2|exact H3].
Defined.

End TokenServiceMore.

(** ** The error boundary *)

Module ErrorBoundaryFacts.
Import ErrorBoundary.

Lemma boundary_run_snoc evs ev : run (evs ++ [ev]) = step (run evs) ev.
Proof. unfold run. by rewrite foldl_app. Qed.

(** X21. What the boundary renders depends on the last event alone.
    After an error it is the custom fallback applied to that error, if
    one is given, and otherwise the panel with the error's message, or
    with "An unexpected error occurred" when the message is empty.  At
    the start and after "Try Again" it is the children. *)
Theorem render_after {V} (fallback : option (Error -> V)) (evs : list event) :
  render fallback (run evs)
  = match last evs with
    | Some (Caught e) =>
        match fallback with
        | Some f => Custom (f e)
        | None => Panel (if JS.str_truthy (message e) then message e
                         else "An unexpected error occurred")
        end
    | _ => Children
    end.
Proof.
  destruct evs as [|ev evs _] using rev_ind; [reflexivity|].
  rewrite boundary_run_snoc, last_snoc. by destruct ev.
Qed.

End ErrorBoundaryFacts.

(** ** The conversion view: handlers, parsing, loading *)

Module AppMore.
Import App AppFacts.

(** X22. The state update of [handleSwap] exchanges the two tokens and
    the two amounts and leaves the rest of the state alone; made twice in
    a row it gives back the state it started from. *)
Theorem handleSwap_involutive (st : State) :
  handleSwap (handleSwap st) = st
  /\ leftToken (handleSwap st) = rightToken st
  /\ rightToken (handleSwap st) = leftToken st
  /\ leftAmount (handleSwap st) = rightAmount st
  /\ rightAmount (handleSwap st) = leftAmount st
  /\ tokens (handleSwap st) = tokens st
  /\ isLoading (handleSwap st) = isLoading st
  /\ error (handleSwap st) = error st.
Proof. by destruct st. Qed.

(** X23. Every part of an accepted input is accepted: an accepted amount
    can be typed, and deleted, one character at a time through the
    handlers' guard. *)
Theorem accepted_parts (s1 s2 : string) :
  accepted (s1 +:+ s2) = true -> accepted s1 = true /\ accepted s2 = true.
Proof.
  rewrite !accepted_decimal. unfold decimal_number.
  rewrite digits_and_points_app, count_points_app.
  intros H. apply andb_true_iff in H as [Hd Hc].
  apply andb_true_iff in Hd as [-> ->]. apply Nat.leb_le in Hc.
  split; apply andb_true_iff; split; try done; apply Nat.leb_le; lia.
Qed.

Lemma accepted_parts_witness : accepted "12." = true /\ accepted "34" = true.
Proof. apply (accepted_parts "12." "34"). reflexivity. Defined.


(** *** Rounding keeps the sign *)

Lemma shr_1_nonneg mrs : 0 <= shr_m mrs -> 0 <= shr_m (shr_1 mrs).
Proof.
  destruct mrs as [m r s]. simpl.
  destruct m as [|[p|p|]|p]; simpl; lia.
Qed.

Lemma iter_shr_1_nonneg p mrs :
  0 <= shr_m mrs -> 0 <= shr_m (SpecFloat.iter_pos shr_1 p mrs).
Proof.
  revert mrs. induction p as [p IH|p IH|]; intros mrs H; simpl.
  - apply IH, IH, shr_1_nonneg, H.
  - apply IH, IH, H.
  - apply shr_1_nonneg, H.
Qed.

Lemma shr_fexp_nonneg m e l :
  0 <= m -> 0 <= shr_m (fst (shr_fexp JS.prec JS.emax m e l)).
Proof.
  intros H. unfold shr_fexp, shr.
  assert (0 <= shr_m (shr_record_of_loc m l)) as H0
    by (destruct l as [|[| |]]; exact H).
  destruct (fexp JS.prec JS.emax (Zdigits2 m + e) - e); simpl;
    [exact H0|by apply iter_shr_1_nonneg|exact H0].
Qed.

Lemma round_nearest_even_nonneg m l : 0 <= m -> 0 <= round_nearest_even m l.
Proof.
  intros H. destruct l as [|[| |]]; simpl; try lia.
  destruct (Z.even m); lia.
Qed.

Lemma binary_round_aux_unsigned m e l :
  0 <= m -> unsigned (binary_round_aux JS.prec JS.emax false m e l).
Proof.
  intros H. unfold binary_round_aux.
  pose proof (shr_fexp_nonneg m e l H) as H1.
  destruct (shr_fexp JS.prec JS.emax m e l) as [mrs' e']. simpl in H1.
  pose proof (shr_fexp_nonneg _ e' loc_Exact
                (round_nearest_even_nonneg _ (loc_of_shr_record mrs') H1)) as H2.
  destruct (shr_fexp JS.prec JS.emax _ e' loc_Exact) as [mrs'' e'']. simpl in H2.
  destruct (shr_m mrs'') as [|p|p]; [done| |lia].
  by destruct (e'' <=? JS.emax - JS.prec).
Qed.

Lemma of_decimal_unsigned m e : unsigned (JS.of_decimal false m e).
Proof.
  unfold JS.of_decimal. destruct m as [|p]; [done|].
  destruct (0 <=? e).
  - unfold binary_round. destruct (shl_align _ _ _) as [mz ez].
    by apply binary_round_aux_unsigned.
  - unfold JS.of_ratio, SFdiv_core_binary.
    set (m' := match _ - _ with 0 => Z.pos p | Z.pos _ => _ | Z.neg _ => 0 end).
    assert (0 <= m') as Hm'.
    { subst m'. destruct (_ - _); [lia| |lia]. apply Z.shiftl_nonneg. lia. }
    pose proof (Z.div_pos m' (Z.pos (Z.to_pos (10 ^ (- e)))) Hm' ltac:(lia))
      as Hq.
    unfold Z.div in Hq.
    destruct (Z.div_eucl m' _) as [q r]. simpl in Hq.
    by apply binary_round_aux_unsigned.
Qed.

(** *** Reading an accepted input *)

Lemma decimal_head c r :
  (JS.is_digit c || is_point c) = true ->
  JS.skip_space (String c r) = String c r
  /\ JS.read_sign (String c r) = (false, String c r)
  /\ String.prefix "Infinity" (String c r) = false.
Proof.
  destruct c as [[] [] [] [] [] [] [] []]; try discriminate; intros _;
    repeat split; reflexivity.
Qed.

Lemma read_digits_spec s acc cnt :
  exists v k s2,
    JS.read_digits s acc cnt = (v, (cnt + k)%nat, s2)
    /\ match s2 with
       | EmptyString => True
       | String c _ => JS.is_digit c = false
       end
    /\ has_digit s = (0 <? k)%nat || has_digit s2
    /\ count_points s = count_points s2
    /\ digits_and_points s = digits_and_points s2.
Proof.
  revert acc cnt. induction s as [|c r IH]; intros acc cnt.
  - exists acc, 0%nat, "". by rewrite Nat.add_0_r.
  - simpl. destruct (JS.is_digit c) eqn:D.
    + destruct (IH (acc * 10 + JS.digit_val c)%N (S cnt))
        as (v & k & s2 & -> & H2 & H3 & H4 & H5).
      exists v, (S k), s2. rewrite (digit_not_point c D).
      split; [f_equal; f_equal; lia|]. repeat split; try done.
    + exists acc, 0%nat, (String c r). rewrite Nat.add_0_r.
      split; [done|]. split; [exact D|]. simpl. rewrite D. done.
Qed.

Lemma decimal_rest s :
  digits_and_points s = true -> count_points s = 0%nat ->
  match s with EmptyString => True | String c _ => JS.is_digit c = false end ->
  s = "".
Proof.
  destruct s as [|c r]; [done|]. simpl.
  intros H1 H2 D. rewrite D in H1. simpl in H1.
  destruct (is_point c); [lia|done].
Qed.

Lemma no_digit_forms s :
  decimal_number s = true -> has_digit s = false -> s = "" \/ s = ".".
Proof.
  unfold decimal_number. intros H N. apply andb_true_iff in H as [H1 H2].
  apply Nat.leb_le in H2.
  destruct s as [|c [|c' r]]; [by left| |].
  - right. simpl in N, H1. destruct (JS.is_digit c); [done|].
    simpl in H1. rewrite andb_true_r in H1.
    apply Ascii.eqb_eq in H1. by subst.
  - exfalso. simpl in N, H1, H2.
    destruct (JS.is_digit c); [done|]. destruct (JS.is_digit c'); [done|].
    simpl in H1. destruct (is_point c); [|done]. destruct (is_point c'); [|done].
    simpl in H2. lia.
Qed.

(** X25. What [parseFloat] makes of an input the handlers accept: [NaN]
    when the input has no digit, which is the case for [""] and ["."]
    only; otherwise a number that is not [NaN] and carries no minus
    sign. *)
Theorem parseFloat_accepted (value : string) :
  accepted value = true ->
  (has_digit value = true -> unsigned (JS.parseFloat value))
  /\ (has_digit value = false ->
      JS.parseFloat value = JS.NaN /\ (value = "" \/ value = ".")).
Proof.
  rewrite accepted_decimal. intros Hd.
  assert (if has_digit value then unsigned (JS.parseFloat value)
          else JS.parseFloat value = JS.NaN) as Hmain.
  { unfold decimal_number in Hd. apply andb_true_iff in Hd as [H1 H2].
    apply Nat.leb_le in H2.
    destruct value as [|c r]; [reflexivity|].
    assert ((JS.is_digit c || is_point c) = true) as Hc
      by (simpl in H1; by apply andb_true_iff in H1 as [? _]).
    destruct (decimal_head c r Hc) as (Hsp & Hsg & Hinf).
    unfold JS.parseFloat. rewrite Hsp, Hsg, Hinf.
    destruct (read_digits_spec (String c r) 0%N 0%nat)
      as (ip & k1 & s2 & -> & T2 & D2 & P2 & A2).
    rewrite D2. rewrite A2 in H1. rewrite P2 in H2.
    destruct s2 as [|c2 r2].
    - simpl. rewrite orb_false_r.
      destruct k1; [reflexivity|]. apply of_decimal_unsigned.
    - simpl in H1. rewrite T2 in H1. simpl in H1.
      apply andb_true_iff in H1 as [Hp H1].
      assert (c2 = "."%char) as -> by (by apply Ascii.eqb_eq).
      simpl in H2.
      destruct (read_digits_spec r2 ip 0%nat)
        as (m & k2 & s3 & -> & T3 & D3 & P3 & A3).
      assert (s3 = "") as ->
        by (apply decimal_rest; [congruence|lia|exact T3]).
      simpl. rewrite D3. simpl. rewrite orb_false_r.
      destruct k1, k2; simpl; try reflexivity; apply of_decimal_unsigned. }
  split; intros Hh; rewrite Hh in Hmain; [exact Hmain|].
  split; [exact Hmain|by apply no_digit_forms].
Qed.

Lemma parseFloat_accepted_witness :
  unsigned (JS.parseFloat "12.50") /\ JS.parseFloat "." = JS.NaN.
Proof.
  split.
  - apply (proj1 (parseFloat_accepted "12.50" eq_refl)). reflexivity.
  - apply (proj2 (parseFloat_accepted "." eq_refl)). reflexivity.
Defined.

(** *** The derived amount *)

Lemma append_nonempty_r (s1 s2 : string) : s2 <> "" -> s1 +:+ s2 <> "".
Proof. intros H E. by destruct (append_is_empty _ _ E). Qed.

Lemma fixed_digits_nonempty n f : JS.fixed_digits n (S f) <> "".
Proof.
  unfold JS.fixed_digits. cbv zeta.
  apply append_nonempty_r. discriminate.
Qed.

Lemma exponential_nonempty X : JS.exponential X <> "".
Proof.
  unfold JS.exponential. cbv zeta. destruct (JS.shortest _ _ _ _) as [s n'].
  apply append_nonempty_r. discriminate.
Qed.

Lemma display_nonempty x : display x <> "".
Proof.
  unfold display. destruct (JS.isNaN x); [discriminate|].
  destruct x as [sg|[|]| |sg m e]; try discriminate.
  unfold JS.toFixed. apply append_nonempty_r.
  destruct (JS.ge_1e21 m e);
    [apply exponential_nonempty|apply fixed_digits_nonempty].
Qed.

(** X26. The conversion effect blanks [rightAmount] exactly when a token
    is not selected or the debounced amount is empty; whenever it
    computes, whatever the prices, it shows something. *)
Theorem derivedRightAmount_blank (leftToken rightToken : option Token.t)
    (debouncedLeftAmount : string) :
  derivedRightAmount leftToken rightToken debouncedLeftAmount = ""
  <-> leftToken = None \/ rightToken = None \/ debouncedLeftAmount = "".
Proof.
  unfold derivedRightAmount.
  destruct leftToken as [l|], rightToken as [r|]; try (split; auto; fail).
  destruct debouncedLeftAmount as [|c amount]; simpl; [split; auto|].
  split.
  - intros H. by destruct (display_nonempty _ H).
  - intros [H|[H|H]]; discriminate.
Qed.

(** *** Loading and selecting tokens *)

Lemma find_symbol_Some symbol l t :
  find_symbol symbol l = Some t -> t ∈ l /\ Token.symbol t = symbol.
Proof.
  induction l as [|x l IH]; simpl; [discriminate|].
  destruct (String.eqb_spec (Token.symbol x) symbol) as [Heq|_].
  - intros [= <-]. split; [left|done].
  - intros H. destruct (IH H). split; [by right|done].
Qed.

Lemma listed_ext st st' :
  tokens st' = tokens st -> leftToken st' = leftToken st ->
  rightToken st' = rightToken st ->
  selected_listed st -> selected_listed st'.
Proof. unfold selected_listed. by intros -> -> ->. Qed.

Lemma handle_listed e st : selected_listed st -> selected_listed (handle e st).
Proof.
  intros [Hl Hr]. destruct e as [v|v| |v|v|v]; simpl.
  - apply (listed_ext st); [| | |by split];
      unfold handleLeftAmountChange; destruct (accepted v); reflexivity.
  - apply (listed_ext st); [| | |by split];
      unfold handleRightAmountChange; destruct (accepted v); try reflexivity;
      destruct (leftToken st) eqn:?, (rightToken st) eqn:?; try done;
      destruct (JS.str_truthy v); done.
  - split; [exact Hr|exact Hl].
  - unfold selectLeftToken.
    destruct (find_symbol v (tokens st)) as [t|] eqn:F; [|by split].
    split; simpl; [|done]. intros x [= <-]. eapply find_symbol_Some; eauto.
  - unfold selectRightToken.
    destruct (find_symbol v (tokens st)) as [t|] eqn:F; [|by split].
    split; simpl; [done|]. intros x [= <-]. eapply find_symbol_Some; eauto.
  - by split.
Qed.

(** Before the tokens are loaded there is nothing to select. *)
Lemma handle_unloaded e st :
  tokens st = [] /\ leftToken st = None /\ rightToken st = None ->
  tokens (handle e st) = [] /\ leftToken (handle e st) = None
  /\ rightToken (handle e st) = None.
Proof.
  intros (Ht & Hl & Hr). destruct e as [v|v| |v|v|v]; simpl.
  - unfold handleLeftAmountChange. by destruct (accepted v).
  - unfold handleRightAmountChange. rewrite Hl.
    by destruct (accepted v).
  - done.
  - unfold selectLeftToken. by rewrite Ht.
  - unfold selectRightToken. by rewrite Ht.
  - done.
Qed.

(** X27. Whatever the user does before and after the tokens are loaded
    (typing amounts, swapping, choosing tokens from the menus, the
    debounce timer firing) and however loading ended, a selected token
    is always one of the tokens of the list. *)
Theorem selection_stays_listed (outcome : TokenService.Settled (list Token.t))
    (before after : list event) :
  selected_listed
    (foldl (fun st e => handle e st)
       (fetchTokens outcome (foldl (fun st e => handle e st) initial before))
       after).
Proof.
  assert (forall evs st, selected_listed st ->
            selected_listed (foldl (fun st e => handle e st) st evs)) as Hrun.
  { induction evs as [|e evs IH]; intros st H; [exact H|].
    simpl. by apply IH, handle_listed. }
  apply Hrun.
  assert (let st := foldl (fun st e => handle e st) initial before in
          tokens st = [] /\ leftToken st = None /\ rightToken st = None) as H0.
  { induction before as [|e evs IH] using rev_ind; [done|].
    rewrite foldl_app. simpl. by apply handle_unloaded. }
  destruct (foldl _ initial before) as [ts lt rt la ra il er].
  simpl in H0. destruct H0 as (-> & -> & ->).
  destruct outcome as [tokenData|e].
  - unfold fetchTokens. simpl.
    destruct (find_symbol "USDC" tokenData) as [u|] eqn:U;
      destruct (find_symbol "ETH" tokenData) as [t|] eqn:E; simpl;
      split; simpl; intros x [= <-] || (intros x; discriminate);
      eapply find_symbol_Some; eassumption.
  - split; simpl; intros x [= <-]; unfold fallbackTokens; simpl;
      set_solver.
Qed.

(** X28. Loading the tokens through [getAllTokensInfo] never ends in the
    error state: whatever the API answers and in whatever order,
    [fetchTokens] leaves no error message, ends the loading state, lists
    the four tokens the cache then shows for the catalog, and does not
    touch the amounts. *)
Theorem fetchTokens_shows_no_error (w : TokenService.World) (sched : list nat)
    (s : TokenService.State) (st : State) :
  let outcome := TokenService.getAllTokensInfo w sched s in
  let st' := fetchTokens (fst outcome) st in
  error st' = None /\ isLoading st' = false
  /\ tokens st' = TokenService.catalog_view (snd outcome)
  /\ length (tokens st') = 4%nat
  /\ leftAmount st' = leftAmount st /\ rightAmount st' = rightAmount st.
Proof.
  intros outcome st'. subst st'.
  destruct (TokenServiceMore.getAllTokensInfo_view w sched s) as [Hv _].
  fold outcome in Hv. rewrite Hv. unfold fetchTokens.
  destruct (find_symbol "USDC" _), (find_symbol "ETH" _); simpl; done.
Qed.

End AppMore.
